(** * grpc-passthrough: the schema-less wire-format codec, the metadata
      authentication transform and the status classification

    A shallow embedding of the health-check passthrough server.  The
    embedded functions are [requestSerialize], [parseProtobufResponse],
    [applyClientKeyAuthorization], [statusToString] and [isServing].

    Conventions of the embedding:
    - a [Buffer] is a list of bytes, each an integer in [0, 255];
    - a JavaScript string is the list of its UTF-16 code units;
    - a JavaScript number that takes part in a bitwise operation is first
      truncated to a signed 32-bit integer ([ToInt32]), as the language
      prescribes; offsets and shift counts stay far below 2^53, so their
      additions are exact and are modelled in [Z];
    - the object returned by the parser is a finite map from property
      names to values;
    - a [while] loop that the source does not bound is run with fuel:
      [None] means that the fuel ran out before the loop exit. *)

From Stdlib Require Import ZArith Lia.
From stdpp Require Import gmap strings list fin_maps pretty.

Local Open Scope Z_scope.

(** ** The JavaScript runtime: 32-bit bitwise operators *)

Module JS.

(** [ToInt32]: reduction modulo 2^32 into the signed range. *)
Definition ToInt32 (z : Z) : Z := (z + 2 ^ 31) mod 2 ^ 32 - 2 ^ 31.

(** [a << b]: the shift count is taken modulo 32. *)
Definition shl (a b : Z) : Z := ToInt32 (Z.shiftl (ToInt32 a) (Z.land b 31)).

(** [a >> b], sign-propagating. *)
Definition sar (a b : Z) : Z := ToInt32 (Z.shiftr (ToInt32 a) (Z.land b 31)).

(** [a | b] and [a & b]. *)
Definition or (a b : Z) : Z := ToInt32 (Z.lor (ToInt32 a) (ToInt32 b)).
Definition and (a b : Z) : Z := ToInt32 (Z.land (ToInt32 a) (ToInt32 b)).

(** A string of the source text (ASCII) as a list of UTF-16 code units. *)
Fixpoint lit (s : string) : list Z :=
  match s with
  | EmptyString => []
  | String a rest => Z.of_N (Ascii.N_of_ascii a) :: lit rest
  end.

End JS.

(** A JavaScript string: its UTF-16 code units. *)
Abbreviation jsstring := (list Z).

(** ** Buffers *)

Module Buf.

(** [buffer[i]]: [None] stands for [undefined], the value of an index
    that is negative or not below the length. *)
Definition get (buffer : list Z) (i : Z) : option Z :=
  if decide (0 <= i) then buffer !! Z.to_nat i else None.

(** The index normalisation of [subarray]: a negative index counts from
    the end, and the outcome is clamped to [0, len]. *)
Definition adjustOffset (offset len : Z) : Z :=
  if decide (offset < 0) then Z.max (offset + len) 0 else Z.min offset len.

(** [buffer.subarray(start, end)]; empty when the normalised end is not
    after the normalised start. *)
Definition subarray (buffer : list Z) (start end_ : Z) : list Z :=
  let len := Z.of_nat (length buffer) in
  let s := adjustOffset start len in
  let e := adjustOffset end_ len in
  take (Z.to_nat (e - s)) (drop (Z.to_nat s) buffer).

(** [Buffer.from(array)]: every element is reduced to one byte. *)
Definition from_array (l : list Z) : list Z := (fun x => x mod 256) <$> l.

End Buf.

(** ** UTF-8 as the runtime implements it

    [Buffer.from(s, "utf8")] and [buffer.toString("utf8")] belong to the
    runtime, not to the repository; they are modelled here after the
    Encoding Standard.  Neither of them ever throws: an unpaired
    surrogate is encoded as U+FFFD, and every maximal ill-formed byte
    sequence is decoded as U+FFFD. *)

Module Utf8.

Definition is_high (u : Z) : bool := bool_decide (0xD800 <= u <= 0xDBFF).
Definition is_low (u : Z) : bool := bool_decide (0xDC00 <= u <= 0xDFFF).

(** The code point of a surrogate pair. *)
Definition pair_cp (hi lo : Z) : Z :=
  0x10000 + (hi - 0xD800) * 0x400 + (lo - 0xDC00).

(** The one to four bytes of a code point. *)
Definition encode_cp (c : Z) : list Z :=
  if decide (c < 0x80) then [c]
  else if decide (c < 0x800) then [0xC0 + c / 64; 0x80 + c mod 64]
  else if decide (c < 0x10000) then
    [0xE0 + c / 64 / 64; 0x80 + c / 64 mod 64; 0x80 + c mod 64]
  else
    [0xF0 + c / 64 / 64 / 64; 0x80 + c / 64 / 64 mod 64;
     0x80 + c / 64 mod 64; 0x80 + c mod 64].

(** U+FFFD REPLACEMENT CHARACTER and its three bytes. *)
Definition replacement : Z := 0xFFFD.
Definition replacement_bytes : list Z := [0xEF; 0xBF; 0xBD].

(** [Buffer.from(s, "utf8")] on the code units of [s]. *)
Fixpoint encode (s : list Z) : list Z :=
  match s with
  | [] => []
  | u :: rest =>
    if is_high u then
      match rest with
      | v :: rest' =>
        if is_low v then encode_cp (pair_cp u v) ++ encode rest'
        else replacement_bytes ++ encode rest
      | [] => replacement_bytes
      end
    else if is_low u then replacement_bytes ++ encode rest
    else encode_cp u ++ encode rest
  end.

(** The decoder's state between two bytes: the code point bits gathered
    so far, the number of continuation bytes still expected, and the
    range allowed for the next one.  The payload bits of a byte are
    written as a difference: in the range where a leading byte [b] opens
    a two-byte sequence, [b - 0xC0] is [b & 0x1F], and likewise for the
    other ranges and for continuation bytes. *)
Record dstate := { cp : Z; needed : nat; lower : Z; upper : Z }.

Definition idle : dstate := {| cp := 0; needed := 0; lower := 0x80; upper := 0xBF |}.

(** A byte met while no sequence is open. *)
Definition lead (b : Z) : dstate * list Z :=
  if decide (b <= 0x7F) then (idle, [b])
  else if decide (0xC2 <= b <= 0xDF) then
    ({| cp := b - 0xC0; needed := 1; lower := 0x80; upper := 0xBF |}, [])
  else if decide (0xE0 <= b <= 0xEF) then
    ({| cp := b - 0xE0; needed := 2;
        lower := if decide (b = 0xE0) then 0xA0 else 0x80;
        upper := if decide (b = 0xED) then 0x9F else 0xBF |}, [])
  else if decide (0xF0 <= b <= 0xF4) then
    ({| cp := b - 0xF0; needed := 3;
        lower := if decide (b = 0xF0) then 0x90 else 0x80;
        upper := if decide (b = 0xF4) then 0x8F else 0xBF |}, [])
  else (idle, [replacement]).

(** One byte: the next state and the code points it completes.  A byte
    that cannot continue the open sequence closes it with U+FFFD and is
    looked at again as a leading byte. *)
Definition step (st : dstate) (b : Z) : dstate * list Z :=
  match needed st with
  | O => lead b
  | S n =>
    if decide (lower st <= b <= upper st) then
      let c := cp st * 64 + (b - 0x80) in
      match n with
      | O => (idle, [c])
      | S _ => ({| cp := c; needed := n; lower := 0x80; upper := 0xBF |}, [])
      end
    else let '(st', out) := lead b in (st', replacement :: out)
  end.

(** The code points of a byte sequence; a sequence left open at the end
    of the input gives one more U+FFFD. *)
Fixpoint run (st : dstate) (bs : list Z) : list Z :=
  match bs with
  | [] => match needed st with O => [] | S _ => [replacement] end
  | b :: bs' => let '(st', out) := step st b in out ++ run st' bs'
  end.

(** The code units of a code point. *)
Definition units_of_cp (c : Z) : list Z :=
  if decide (c < 0x10000) then [c]
  else [0xD800 + (c - 0x10000) / 0x400; 0xDC00 + (c - 0x10000) mod 0x400].

(** [buffer.toString("utf8")]. *)
Definition decode (bs : list Z) : list Z := run idle bs ≫= units_of_cp.

(** [s.isWellFormed()]: no surrogate of [s] is unpaired. *)
Fixpoint isWellFormed (s : list Z) : bool :=
  match s with
  | [] => true
  | u :: rest =>
    if is_high u then
      match rest with
      | v :: rest' => is_low v && isWellFormed rest'
      | [] => false
      end
    else if is_low u then false
    else isWellFormed rest
  end.

(** [s.toWellFormed()]: [s] with U+FFFD in place of every unpaired
    surrogate. *)
Fixpoint toWellFormed (s : list Z) : list Z :=
  match s with
  | [] => []
  | u :: rest =>
    if is_high u then
      match rest with
      | v :: rest' =>
        if is_low v then u :: v :: toWellFormed rest'
        else replacement :: toWellFormed rest
      | [] => [replacement]
      end
    else if is_low u then replacement :: toWellFormed rest
    else u :: toWellFormed rest
  end.

(** The code units of a string are 16-bit. *)
Definition code_units (s : list Z) : Prop := Forall (λ u, 0 <= u < 0x10000) s.

End Utf8.

(** ** Values and the health service definition *)

(** The values the program stores in objects and passes around. *)
Inductive jsval :=
| VUndefined
| VNum (n : Z)
| VBool (b : bool)
| VStr (s : jsstring)
| VBuf (data : list Z).

#[global] Instance jsval_eq_dec : EqDecision jsval.
Proof. solve_decision. Defined.

Module Health.

(** [HealthServiceDefinition.Check.requestSerialize]; the request's
    [service] property is [None] when it is absent. *)
Definition requestSerialize (request : option jsstring) : list Z :=
  let service := default [] request in
  if decide (length service = 0%nat) then []
  else
    let serviceBytes := Utf8.encode service in
    let header := Buf.from_array [0x0a; Z.of_nat (length serviceBytes)] in
    header ++ serviceBytes.

(** The loop that both the varint branch and the length-delimited
    branch of [parseProtobufResponse] contain, with the accumulator
    called [value] in the first and [length] in the second.  [reads] is
    the list of the indices at which [buffer] has been subscripted; it
    is there for the proofs and plays no part in the outcome. *)
Fixpoint varint_loop (fuel : nat) (buffer : list Z)
    (offset value shift : Z) (reads : list Z) : option (Z * Z * list Z) :=
  if decide (offset < Z.of_nat (length buffer)) then
    match fuel with
    | O => None
    | S fuel' =>
      match Buf.get buffer offset with
      | None => Some (value, offset, reads ++ [offset])
      | Some byte =>
        let reads := reads ++ [offset] in
        let offset := offset + 1 in
        let value := JS.or value (JS.shl (JS.and byte 0x7f) shift) in
        if decide (JS.and byte 0x80 = 0) then Some (value, offset, reads)
        else varint_loop fuel' buffer offset value (shift + 7) reads
      end
    end
  else Some (value, offset, reads).

(** The loop started as the source starts it: accumulator and shift at
    zero.  One more round than the buffer has bytes is always enough
    ([readVarint_total]). *)
Definition readVarint (buffer : list Z) (offset : Z) : option (Z * Z * list Z) :=
  varint_loop (S (length buffer)) buffer offset 0 0 [].

(** [buffer.toString("utf8")] inside the [try] block: [None] would be
    the exception that the [catch] clause is written for. *)
Definition toString_utf8 (data : list Z) : option jsstring :=
  Some (Utf8.decode data).

(** The template literal [`field_${fieldNumber}`]. *)
Definition field_key (fieldNumber : Z) : string := "field_" +:+ pretty fieldNumber.

(** The argument of [console.warn] in the default branch. *)
Definition warning (wireType offset : Z) : string :=
  "Unknown wire type " +:+ pretty wireType +:+ " at offset " +:+ pretty (offset - 1).

(** The variables of [parseProtobufResponse], and the console. *)
Record pstate := PState {
  offset : Z;
  result : gmap string jsval;
  console : list string
}.

(** What the varint branch writes: the generic entry, and [status] for
    field 1. *)
Definition store_varint (fieldNumber value : Z) (result : gmap string jsval)
    : gmap string jsval :=
  let result := <[field_key fieldNumber := VNum value]> result in
  if decide (fieldNumber = 1) then <["status" := VNum value]> result else result.

(** What the [try] block of the length-delimited branch writes: the
    generic entry, and the known fields 2, 4 and 5. *)
Definition store_string (fieldNumber : Z) (str : jsstring) (result : gmap string jsval)
    : gmap string jsval :=
  let result := <[field_key fieldNumber := VStr str]> result in
  let result :=
    if decide (fieldNumber = 2) then <["latency" := VStr str]> result else result in
  let result :=
    if decide (fieldNumber = 4) then <["error_code" := VStr str]> result else result in
  if decide (fieldNumber = 5) then <["error_message" := VStr str]> result else result.

(** The body of the outer loop once the tag has been read. *)
Definition parse_field (buffer : list Z) (st : pstate) (tag : Z) : option pstate :=
  let fieldNumber := JS.sar tag 3 in
  let wireType := JS.and tag 0x07 in
  let offset := offset st + 1 in
  if decide (wireType = 0) then
    '(value, offset, _) ← readVarint buffer offset;
    Some (PState offset (store_varint fieldNumber value (result st)) (console st))
  else if decide (wireType = 2) then
    '(length, offset, _) ← readVarint buffer offset;
    let data := Buf.subarray buffer offset (offset + length) in
    let offset := offset + length in
    match toString_utf8 data with
    | Some str =>
      Some (PState offset (store_string fieldNumber str (result st)) (console st))
    | None =>
      Some (PState offset (<[field_key fieldNumber := VBuf data]> (result st)) (console st))
    end
  else
    Some (PState (Z.of_nat (length buffer)) (result st)
                 (console st ++ [warning wireType offset])).

(** The outer loop.  Each round costs one unit of fuel. *)
Fixpoint parse_loop (fuel : nat) (buffer : list Z) (st : pstate) : option pstate :=
  if decide (offset st < Z.of_nat (length buffer)) then
    match Buf.get buffer (offset st) with
    | None => Some st
    | Some tag =>
      match fuel with
      | O => None
      | S fuel' => st' ← parse_field buffer st tag; parse_loop fuel' buffer st'
      end
    end
  else Some st.

Definition initial : pstate := PState 0 ∅ [].

(** [parseProtobufResponse]: the object it returns, and what it wrote to
    the console. *)
Definition parseProtobufResponse (fuel : nat) (buffer : list Z)
    : option (gmap string jsval * list string) :=
  st ← parse_loop fuel buffer initial; Some (result st, console st).

(** One round of the outer loop, for a state in which the loop goes on:
    [None] when the loop condition fails or the tag is [undefined]. *)
Definition round (buffer : list Z) (st : pstate) : option pstate :=
  if decide (offset st < Z.of_nat (length buffer)) then
    tag ← Buf.get buffer (offset st); parse_field buffer st tag
  else None.

(** The state after exactly [n] rounds. *)
Fixpoint rounds (n : nat) (buffer : list Z) (st : pstate) : option pstate :=
  match n with
  | O => Some st
  | S n' => st' ← round buffer st; rounds n' buffer st'
  end.

(** [requestDeserialize]: the [service] of the object it returns, the
    whole buffer read as text. *)
Definition requestDeserialize (buffer : list Z) : jsstring := Utf8.decode buffer.

End Health.

(** ** Classification of the decoded status *)

Module Status.

Definition statusToString (status : jsval) : string :=
  if decide (status = VNum 1 ∨ status = VStr (JS.lit "SERVING")) then "SERVING"
  else if decide (status = VNum 2 ∨ status = VStr (JS.lit "NOT_SERVING")) then "NOT_SERVING"
  else if decide (status = VNum 3 ∨ status = VStr (JS.lit "SERVICE_UNKNOWN")) then
    "SERVICE_UNKNOWN"
  else "UNKNOWN".

Definition isServing (status : jsval) : bool :=
  bool_decide (status = VStr (JS.lit "SERVING") ∨ status = VNum 1).

(** [response?.status] in the callback of [performHealthCheck]. *)
Definition rawStatus (response : gmap string jsval) : jsval :=
  default VUndefined (response !! "status").

End Status.

(** ** HMAC-SHA256 as the runtime implements it

    [createHmac("sha256", key).update(message).digest("hex")] belongs to
    the runtime; it is modelled here after FIPS 180-4 and RFC 2104, on
    bytes, with strings entering through their UTF-8 encoding. *)

Module Crypto.

(** 32-bit words. *)
Definition w32 (x : Z) : Z := x mod 2 ^ 32.

Definition rotr (n x : Z) : Z := Z.lor (Z.shiftr x n) (w32 (Z.shiftl x (32 - n))).
Definition lnot32 (x : Z) : Z := 2 ^ 32 - 1 - x.

Definition Ch (x y z : Z) : Z := Z.lxor (Z.land x y) (Z.land (lnot32 x) z).
Definition Maj (x y z : Z) : Z :=
  Z.lxor (Z.lxor (Z.land x y) (Z.land x z)) (Z.land y z).
Definition Sigma0 (x : Z) : Z := Z.lxor (Z.lxor (rotr 2 x) (rotr 13 x)) (rotr 22 x).
Definition Sigma1 (x : Z) : Z := Z.lxor (Z.lxor (rotr 6 x) (rotr 11 x)) (rotr 25 x).
Definition sigma0 (x : Z) : Z := Z.lxor (Z.lxor (rotr 7 x) (rotr 18 x)) (Z.shiftr x 3).
Definition sigma1 (x : Z) : Z := Z.lxor (Z.lxor (rotr 17 x) (rotr 19 x)) (Z.shiftr x 10).

(** The round constants are the first 32 bits of the fractional parts of
    the cube roots of the first 64 primes, and the initial chaining value
    those of the square roots of the first 8; they are computed here
    rather than tabulated. *)
Definition is_prime (p : Z) : bool :=
  forallb (λ d, negb (p mod d =? 0)) (seqZ 2 (p - 2)).

Definition primes : list Z := List.filter is_prime (seqZ 2 310).

(** The integer cube root of [n], found bit by bit from bit [bits - 1]
    down. *)
Fixpoint root3 (bits : nat) (n r : Z) : Z :=
  match bits with
  | O => r
  | S bits' =>
    let r' := r + 2 ^ Z.of_nat bits' in
    root3 bits' n (if decide (r' ^ 3 <= n) then r' else r)
  end.

Definition frac_cbrt (p : Z) : Z := root3 36 (p * 2 ^ 96) 0 mod 2 ^ 32.
Definition frac_sqrt (p : Z) : Z := Z.sqrt (p * 2 ^ 64) mod 2 ^ 32.

Definition K : list Z := Eval vm_compute in frac_cbrt <$> primes.

(** The eight working variables, also the chaining value. *)
Record hstate := HState { ha : Z; hb : Z; hc : Z; hd : Z; he : Z; hf : Z; hg : Z; hh : Z }.

Definition H0 : hstate :=
  Eval vm_compute in
    match frac_sqrt <$> take 8 primes with
    | [a; b; c; d; e; f; g; h] => HState a b c d e f g h
    | _ => HState 0 0 0 0 0 0 0 0
    end.

(** The message schedule, kept newest word first while it grows. *)
Fixpoint extend (n : nat) (newest_first : list Z) : list Z :=
  match n with
  | O => newest_first
  | S n' =>
    let at_ i := default 0 (newest_first !! i) in
    extend n' (w32 (sigma1 (at_ 1%nat) + at_ 6%nat + sigma0 (at_ 14%nat) + at_ 15%nat)
               :: newest_first)
  end.

Definition schedule (block : list Z) : list Z := reverse (extend 48 (reverse block)).

Definition round (s : hstate) (kw : Z * Z) : hstate :=
  let t1 := hh s + Sigma1 (he s) + Ch (he s) (hf s) (hg s) + kw.1 + kw.2 in
  let t2 := Sigma0 (ha s) + Maj (ha s) (hb s) (hc s) in
  HState (w32 (t1 + t2)) (ha s) (hb s) (hc s) (w32 (hd s + t1)) (he s) (hf s) (hg s).

Definition compress (s : hstate) (block : list Z) : hstate :=
  let s' := foldl round s (zip K (schedule block)) in
  HState (w32 (ha s + ha s')) (w32 (hb s + hb s')) (w32 (hc s + hc s'))
         (w32 (hd s + hd s')) (w32 (he s + he s')) (w32 (hf s + hf s'))
         (w32 (hg s + hg s')) (w32 (hh s + hh s')).

(** Big-endian bytes of a number, [n] of them. *)
Fixpoint be_bytes (n : nat) (x : Z) : list Z :=
  match n with
  | O => []
  | S n' => (x / 256 ^ Z.of_nat n') mod 256 :: be_bytes n' x
  end.

(** Big-endian words of a byte string whose length is a multiple of 4. *)
Fixpoint words (fuel : nat) (bytes : list Z) : list Z :=
  match fuel, bytes with
  | S fuel', b0 :: b1 :: b2 :: b3 :: rest =>
    (((b0 * 256 + b1) * 256 + b2) * 256 + b3) :: words fuel' rest
  | _, _ => []
  end.

Definition pad (msg : list Z) : list Z :=
  let l := Z.of_nat (length msg) in
  msg ++ [0x80] ++ replicate (Z.to_nat ((55 - l) mod 64)) 0 ++ be_bytes 8 (8 * l).

Fixpoint hash_blocks (fuel : nat) (s : hstate) (bytes : list Z) : hstate :=
  match fuel, bytes with
  | S fuel', _ :: _ => hash_blocks fuel' (compress s (words 16 (take 64 bytes))) (drop 64 bytes)
  | _, _ => s
  end.

Definition digest (s : hstate) : list Z :=
  [ha s; hb s; hc s; hd s; he s; hf s; hg s; hh s] ≫= be_bytes 4.

Definition sha256 (msg : list Z) : list Z :=
  let padded := pad msg in digest (hash_blocks (length padded) H0 padded).

(** RFC 2104 with a block size of 64 bytes. *)
Definition hmac_sha256 (key msg : list Z) : list Z :=
  let key := if decide (64 < length key)%nat then sha256 key else key in
  let key := key ++ replicate (64 - length key) 0 in
  let ipad := (λ b, Z.lxor b 0x36) <$> key in
  let opad := (λ b, Z.lxor b 0x5c) <$> key in
  sha256 (opad ++ sha256 (ipad ++ msg)).

(** Lower-case hexadecimal digits, as code units. *)
Definition hex_digit (d : Z) : Z := if decide (d < 10) then 0x30 + d else 0x57 + d.

Definition hex (bytes : list Z) : list Z :=
  bytes ≫= λ b, [hex_digit (b / 16 mod 16); hex_digit (b mod 16)].

(** [createHmac("sha256", key).update(message).digest("hex")] for two
    strings. *)
Definition hmac_sha256_hex (key message : list Z) : list Z :=
  hex (hmac_sha256 (Utf8.encode key) (Utf8.encode message)).

End Crypto.

(** ** The metadata authentication transform *)

Module Auth.

Record MetadataItem := { key : jsstring; value : jsval }.

(** [String(n)] for an integral number; the rounded time of the
    transform is one, far below the magnitude at which the runtime
    switches to exponent notation. *)
Definition Number_toString (n : Z) : jsstring := JS.lit (pretty n).

Section transform.

(** [String.prototype.toLowerCase] and the conversion [String(value)]
    are runtime functions; the transform is embedded over any two
    functions in their place. *)
Variable toLowerCase : jsstring → jsstring.
Variable String_ : jsval → jsstring.

(** [seconds - (seconds % 30)] for [seconds = Math.floor(now / 1000)];
    the remainder operator takes the sign of the dividend. *)
Definition rounded (now : Z) : Z :=
  let seconds := now / 1000 in
  seconds - Z.rem seconds 30.

(** [applyClientKeyAuthorization], with the value of [Date.now()] as an
    argument. *)
Definition applyClientKeyAuthorization (now : Z) (entries : list MetadataItem)
    : list MetadataItem :=
  match List.find (λ entry, bool_decide (toLowerCase (key entry) = JS.lit "client-key"))
                  entries with
  | None => entries
  | Some clientEntry =>
    let secretKey := String_ (value clientEntry) in
    let signature := Crypto.hmac_sha256_hex secretKey (Number_toString (rounded now)) in
    let filtered :=
      List.filter
        (λ entry,
           negb (bool_decide (toLowerCase (key entry) = JS.lit "client-key"))
           && negb (bool_decide (toLowerCase (key entry) = JS.lit "authorization")))
        entries in
    filtered ++ [ {| key := JS.lit "Authorization";
                     value := VStr (JS.lit "TOTP " ++ signature) |} ]
  end.

End transform.

(** [toLowerCase] on strings whose cased characters are ASCII letters;
    the runtime lower-cases other characters too, among them U+212A to
    "k".  Used in examples only, on ASCII keys. *)
Definition ascii_toLowerCase (s : jsstring) : jsstring :=
  (λ u, if decide (0x41 <= u <= 0x5A) then u + 0x20 else u) <$> s.

(** [String(value)] on the values of the embedding, numbers being
    integers below 10^21 in magnitude, which the runtime prints in full.
    Used in examples only. *)
Definition String_of (v : jsval) : jsstring :=
  match v with
  | VUndefined => JS.lit "undefined"
  | VNum n => Number_toString n
  | VBool true => JS.lit "true"
  | VBool false => JS.lit "false"
  | VStr s => s
  | VBuf data => Utf8.decode data
  end.

(** A lower-case hexadecimal digit. *)
Definition is_hex (u : Z) : Prop := 0x30 <= u <= 0x39 ∨ 0x61 <= u <= 0x66.

End Auth.

(** ** Predicates used in the statements below *)

(** No length-delimited field, at whatever offset its tag is read,
    decodes to a negative length. *)
Definition lengths_nonneg (buffer : list Z) : Prop :=
  ∀ o tag len p reads,
    Buf.get buffer o = Some tag → JS.and tag 0x07 = 2 →
    Health.readVarint buffer (o + 1) = Some (len, p, reads) → 0 <= len.

(** No property of the object holds a raw buffer. *)
Definition no_raw_bytes (result : gmap string jsval) : Prop :=
  map_Forall (λ _ v, ∀ data, v ≠ VBuf data) result.

(** ** Inputs used in the statements below *)

(** One length-delimited field whose five length bytes decode, in
    32-bit arithmetic, to -6.  The field is six bytes long. *)
Definition looping_buffer : list Z := [0x0a; 0xFA; 0xFF; 0xFF; 0xFF; 0x0F].

(** ** The reference varint encoder *)

Module Varint.

(** Modelled from the spec: [encodeVarint], which the repository does not
    contain (the request encoder writes its length byte directly).  The
    spec's words: base-128 little-endian encoding, continuation bit set on
    all but the final byte, for an unsigned 64-bit [n]. *)
Fixpoint encode_groups (fuel : nat) (n : Z) : list Z :=
  match fuel with
  | O => []
  | S fuel' =>
    if decide (n < 128) then [n]
    else (128 + n mod 128) :: encode_groups fuel' (n / 128)
  end.

(** Ten groups of seven bits hold every 64-bit value. *)
Definition encodeVarint (n : Z) : list Z := encode_groups 10 n.

End Varint.

(** ** Buffers on which the decoder is studied further *)

(** The high bit of a byte: the varint loop goes on after such a byte. *)
Definition continues (b : Z) : bool := negb (bool_decide (JS.and b 0x80 = 0)).

(** Four bytes in a row from index [i] on, all with the high bit set. *)
Definition run_of_four (buffer : list Z) (i : nat) : bool :=
  forallb (λ j, match buffer !! (i + j)%nat with
                | Some b => continues b
                | None => false
                end) (seq 0 4).

(** No such run anywhere in the buffer. *)
Definition short_runs (buffer : list Z) : bool :=
  forallb (λ i, negb (run_of_four buffer i)) (seq 0 (length buffer)).

(** A 32-bit signed integer, which is what the bitwise operators of the
    language produce. *)
Definition int32 (n : Z) : Prop := - 2 ^ 31 <= n < 2 ^ 31.

(** The elements of a [Buffer] are bytes. *)
Definition is_bytes (buffer : list Z) : Prop := Forall (λ b, 0 <= b < 256) buffer.

(** The properties that the decoder writes: [status] holds a number,
    the three named strings hold text, and [field_N], for a field number
    [N] that fits a one-byte tag, holds either. *)
Definition shape (k : string) (v : jsval) : Prop :=
  (k = "status" ∧ ∃ n, v = VNum n ∧ int32 n)
  ∨ (k ∈ ["latency"; "error_code"; "error_message"] ∧ ∃ s, v = VStr s)
  ∨ (∃ f, 0 <= f < 32 ∧ k = Health.field_key f
          ∧ ((∃ n, v = VNum n ∧ int32 n) ∨ ∃ s, v = VStr s)).

Definition well_shaped (result : gmap string jsval) : Prop := map_Forall shape result.

(** The number that the seven-bit groups [groups], least significant
    first, and the final group [last] stand for. *)
Definition groups_value (groups : list Z) (last : Z) : Z :=
  foldr (λ g acc, g + 128 * acc) last groups.

(** The bytes of those groups: every byte but the final one has its high
    bit set. *)
Definition groups_bytes (groups : list Z) (last : Z) : list Z :=
  ((λ g, 128 + g) <$> groups) ++ [last].

(** A field as it lies in a well-formed message: its number, the
    seven-bit groups of its varint (of its length, for a length-delimited
    field) and, for a length-delimited field, its payload. *)
Inductive field :=
| Varint (fieldNumber : Z) (groups : list Z) (last : Z)
| Delimited (fieldNumber : Z) (groups : list Z) (last : Z) (payload : list Z).

(** The bytes of a field: the one-byte tag, the varint, the payload. *)
Definition field_bytes (fld : field) : list Z :=
  match fld with
  | Varint f groups last => 8 * f :: groups_bytes groups last
  | Delimited f groups last payload => 8 * f + 2 :: groups_bytes groups last ++ payload
  end.

Definition varint_valid (groups : list Z) (last : Z) : Prop :=
  Forall (λ g, 0 <= g < 128) groups ∧ 0 <= last < 128
  ∧ (length groups <= 4)%nat ∧ groups_value groups last < 2 ^ 31.

(** The field number fits the one-byte tag, the varint has at most five
    bytes and a value below 2^31, and the payload has the length
    announced. *)
Definition field_valid (fld : field) : Prop :=
  match fld with
  | Varint f groups last => 0 <= f < 32 ∧ varint_valid groups last
  | Delimited f groups last payload =>
    0 <= f < 32 ∧ varint_valid groups last
    ∧ groups_value groups last = Z.of_nat (length payload)
  end.

(** What the decoder is to record for a field. *)
Definition record_field (result : gmap string jsval) (fld : field) : gmap string jsval :=
  match fld with
  | Varint f groups last => Health.store_varint f (groups_value groups last) result
  | Delimited f _ _ payload => Health.store_string f (Utf8.decode payload) result
  end.

Definition message_bytes (fields : list field) : list Z := fields ≫= field_bytes.

(** ** The HTTP front: metadata normalisation, the health check and the
       request handler

    The payload is what [req.json()] returns, a value of unknown type.
    The runtime and the RPC library enter as the variables of the section:
    the numbers of the runtime, string lower-casing and conversion, the
    [Metadata] class, the clock, and the [Check] method of the client
    that [makeGenericClientConstructor] builds.  The status and the body
    of a response are modelled; its headers, the same fixed ones on every
    response, are not. *)

Module Http.

#[local] Set Warnings "-register-all".

Section server.

(** Numbers are kept abstract; the server only ever asks whether one is
    truthy. *)
Variable number : Type.
Variable number_truthy : number → bool.

(** A value of unknown type.  The properties of an object are listed
    with their names, each name once. *)
Inductive unknown :=
| UUndefined
| UNull
| UBool (b : bool)
| UNumber (n : number)
| UString (s : jsstring)
| UArray (items : list unknown)
| UObject (props : list (jsstring * unknown)).

(** The truth value of a value in a condition. *)
Definition ToBoolean (v : unknown) : bool :=
  match v with
  | UUndefined | UNull => false
  | UBool b => b
  | UNumber n => number_truthy n
  | UString s => negb (bool_decide (s = []))
  | UArray _ | UObject _ => true
  end.

Definition nullish (v : unknown) : bool :=
  match v with
  | UUndefined | UNull => true
  | _ => false
  end.

(** [a ?? b]. *)
Definition coalesce (a b : unknown) : unknown := if nullish a then b else a.

(** [typeof v === "object"]: also true of [null]. *)
Definition typeof_object (v : unknown) : bool :=
  match v with
  | UNull | UArray _ | UObject _ => true
  | _ => false
  end.

Definition typeof_string (v : unknown) : bool :=
  match v with
  | UString _ => true
  | _ => false
  end.

Definition is_undefined (v : unknown) : bool :=
  match v with
  | UUndefined => true
  | _ => false
  end.

Fixpoint own (props : list (jsstring * unknown)) (name : jsstring) : unknown :=
  match props with
  | [] => UUndefined
  | (k, v) :: rest => if decide (k = name) then v else own rest name
  end.

(** [v.name] for the names the server reads ([metadata], [target],
    [host], [service], [insecure], [key], [value]), none of which a
    string, a number, a boolean or an array has.  [None] is the
    [TypeError] of reading a property of [null] or [undefined]. *)
Definition read (v : unknown) (name : string) : option unknown :=
  match v with
  | UUndefined | UNull => None
  | UObject props => Some (own props (JS.lit name))
  | _ => Some UUndefined
  end.

(** [v?.name], also [v.name] where [v] is known not to be nullish. *)
Definition read_opt (v : unknown) (name : string) : unknown :=
  default UUndefined (read v name).

(** The cast [entry.value as string | number | boolean]: the value of an
    entry as a value of the embedding. *)
Variable as_value : unknown → jsval.

Definition string_of (v : unknown) : jsstring :=
  match v with
  | UString s => s
  | _ => []
  end.

(** [normalizeMetadata]. *)
Definition normalizeMetadata (metadata : unknown) : list Auth.MetadataItem :=
  match metadata with
  | UArray items =>
    let objects :=
      map (λ entry, if ToBoolean entry && typeof_object entry then entry else UNull) items in
    let kept :=
      List.filter
        (λ entry,
           ToBoolean entry && typeof_string (read_opt entry "key")
           && negb (is_undefined (read_opt entry "value")))
        objects in
    map (λ entry, {| Auth.key := string_of (read_opt entry "key");
                     Auth.value := as_value (read_opt entry "value") |}) kept
  | _ => []
  end.

(** An error as the handler looks at it: its [message], [code] and
    [details], and the map of its [metadata] when it has one with a
    [getMap] method. *)
Variable meta_map : Type.

Record error := Error {
  message : option jsstring;
  code : jsval;
  details : option jsstring;
  emetadata : option meta_map
}.

(** The [TypeError] of the runtime for a property read on [null] or
    [undefined], by property name. *)
Variable type_error : string → error.

Variable toLowerCase : jsstring → jsstring.
Variable String_ : jsval → jsstring.

(** The [Metadata] class of the RPC library: [add] throws on a key or a
    value that the library does not accept. *)
Variable Metadata : Type.
Variable md_new : Metadata.
Variable md_add : Metadata → jsstring → jsstring → error + Metadata.

(** The [for] loop of [buildGrpcMetadata]. *)
Fixpoint add_all (md : Metadata) (entries : list Auth.MetadataItem) : error + Metadata :=
  match entries with
  | [] => inr md
  | entry :: rest =>
    match md_add md (Auth.key entry) (String_ (Auth.value entry)) with
    | inl e => inl e
    | inr md' => add_all md' rest
    end
  end.

(** The value of [Date.now()]. *)
Variable now : Z.

(** [buildGrpcMetadata]: the error thrown, or the pair it returns. *)
Definition buildGrpcMetadata (input : unknown)
    : error + (Metadata * list Auth.MetadataItem) :=
  match read input "metadata" with
  | None => inl (type_error "metadata")
  | Some metadata =>
    let normalized := normalizeMetadata metadata in
    let processed := Auth.applyClientKeyAuthorization toLowerCase String_ now normalized in
    match add_all md_new processed with
    | inl e => inl e
    | inr md => inr (md, processed)
    end
  end.

Inductive channel := Insecure | Ssl.

(** What becomes of a call: the callback gets an error, or a response
    (possibly none), or is never called.  The library decodes the bytes
    of a response with [responseDeserialize], that is with
    [parseProtobufResponse], before it calls back; a call whose callback
    is never called is one that the upstream leaves unanswered or one in
    which the library does not get that far. *)
Inductive call_outcome :=
| Rejected (e : error)
| Answered (response : option (gmap string jsval))
| Unanswered.

(** [new GenericHealthClient(target, creds).Check(request, md, callback)],
    by the target, the credentials, the [service] of the request and the
    metadata. *)
Variable Check : jsstring → channel → unknown → Metadata → call_outcome.

Record HealthCheckResult := {
  status : string;
  rawStatus : jsval;
  serving : bool;
  response : option (gmap string jsval)
}.

(** The error that [performHealthCheck] throws itself. *)
Definition target_error : error :=
  Error (Some (JS.lit "`target` (host:port) is required in the payload."))
        VUndefined None None.

(** The callback handed to [Check], and the promise it settles:
    [None] when it is never called, otherwise the rejection or the
    result. *)
Definition callback (outcome : call_outcome) : option (error + HealthCheckResult) :=
  match outcome with
  | Rejected e => Some (inl e)
  | Unanswered => None
  | Answered response =>
    let rawStatus :=
      match response with
      | Some r => Status.rawStatus r
      | None => VUndefined
      end in
    Some (inr {| status := Status.statusToString rawStatus;
                 rawStatus := rawStatus;
                 serving := Status.isServing rawStatus;
                 response := response |})
  end.

(** [performHealthCheck]. *)
Definition performHealthCheck (input : unknown) (grpcMetadata : Metadata)
    : option (error + HealthCheckResult) :=
  match read input "target" with
  | None => Some (inl (type_error "target"))
  | Some first =>
    let target := coalesce first (read_opt input "host") in
    if negb (ToBoolean target) || negb (typeof_string target) then Some (inl target_error)
    else
      let channelCredentials :=
        if ToBoolean (read_opt input "insecure") then Insecure else Ssl in
      callback (Check (string_of target) channelCredentials
                      (coalesce (read_opt input "service") (UString [])) grpcMetadata)
  end.

(** [s.includes(pattern)]. *)
Fixpoint includes (s pattern : jsstring) : bool :=
  bool_decide (pattern `prefix_of` s)
  || match s with
     | [] => false
     | _ :: s' => includes s' pattern
     end.

(** The test [isAuthError] of the [catch] clause. *)
Definition isAuthError (e : error) : bool :=
  bool_decide (code e = VNum 16)
  || bool_decide (code e = VNum 7)
  || (bool_decide (code e = VNum 13)
      && match details e with
         | Some d => includes d (JS.lit "Response message parsing error")
         | None => false
         end).

(** The data handed to [jsonResponse]. *)
Inductive body :=
| NoBody
| Banner
| InvalidJson (details : jsstring)
| HealthBody (target service : unknown) (insecure : bool)
    (metadataSent : list Auth.MetadataItem) (status : string) (rawStatus : jsval)
    (serving : bool) (grpcResponse : option (gmap string jsval))
| ErrorBody (error : jsstring) (code : jsval) (details : option jsstring)
    (metadata : option meta_map) (target service : unknown)
    (metadataSent : option (list Auth.MetadataItem))
| NotFound.

Record reply := Reply { http_status : Z; http_body : body }.

(** The [catch] clause of the health check. *)
Definition failure (e : error) (payload : unknown)
    (metadataSent : option (list Auth.MetadataItem)) : reply :=
  Reply (if isAuthError e then 401 else 502)
        (ErrorBody (default (JS.lit "Health check failed.") (message e))
                   (code e) (details e) (emetadata e)
                   (coalesce (read_opt payload "target") (read_opt payload "host"))
                   (coalesce (read_opt payload "service") (UString []))
                   metadataSent).

(** The second [try] block of the handler. *)
Definition health_check (payload : unknown) : option reply :=
  match buildGrpcMetadata payload with
  | inl e => Some (failure e payload None)
  | inr (grpcMetadata, sent) =>
    match performHealthCheck payload grpcMetadata with
    | None => None
    | Some (inl e) => Some (failure e payload (Some sent))
    | Some (inr result) =>
      Some (Reply (if serving result then 200 else 503)
                  (HealthBody (coalesce (read_opt payload "target") (read_opt payload "host"))
                              (coalesce (read_opt payload "service") (UString []))
                              (ToBoolean (read_opt payload "insecure"))
                              sent (status result) (rawStatus result) (serving result)
                              (response result)))
    end
  end.

(** The [fetch] handler, by the method and the path of the request and
    by what [req.json()] gives: the message of its exception, or the
    payload.  [None] when the handler never answers. *)
Definition fetch (method pathname : string) (json : jsstring + unknown) : option reply :=
  if decide (method = "OPTIONS") then Some (Reply 204 NoBody)
  else if decide (pathname = "/" ∧ method = "GET") then Some (Reply 200 Banner)
  else if decide (pathname = "/health/check" ∧ method = "POST") then
    match json with
    | inl parse_message => Some (Reply 400 (InvalidJson parse_message))
    | inr payload => health_check payload
    end
  else Some (Reply 404 NotFound).

End server.

Arguments UUndefined {number}.
Arguments UNull {number}.
Arguments UBool {number} b.
Arguments UNumber {number} n.
Arguments UString {number} s.
Arguments UArray {number} items.
Arguments UObject {number} props.
Arguments Error {meta_map} message code details emetadata.
Arguments message {meta_map} e.
Arguments code {meta_map} e.
Arguments details {meta_map} e.
Arguments emetadata {meta_map} e.
Arguments Rejected {meta_map} e.
Arguments Answered {meta_map} response.
Arguments Unanswered {meta_map}.
Arguments NoBody {number meta_map}.
Arguments Banner {number meta_map}.
Arguments InvalidJson {number meta_map} details.
Arguments HealthBody {number meta_map}.
Arguments ErrorBody {number meta_map}.
Arguments NotFound {number meta_map}.
Arguments target_error {meta_map}.
Arguments Reply {number meta_map} http_status http_body.
Arguments http_status {number meta_map} r.
Arguments http_body {number meta_map} r.

(** The entry of the metadata list that an element of the array stands
    for: an object with a string [key] and a [value] that is not
    [undefined]. *)
Definition item_of {number : Type} (as_value : unknown number → jsval)
    (entry : unknown number) : option Auth.MetadataItem :=
  match entry with
  | UObject props =>
    match own number props (JS.lit "key"), own number props (JS.lit "value") with
    | UString _, UUndefined => None
    | UString k, v => Some {| Auth.key := k; Auth.value := as_value v |}
    | _, _ => None
    end
  | _ => None
  end.

(** The [metadataSent] of a body. *)
Definition metadata_sent {number meta_map : Type} (b : body number meta_map)
    : option (list Auth.MetadataItem) :=
  match b with
  | HealthBody _ _ _ sent _ _ _ _ => Some sent
  | ErrorBody _ _ _ _ _ _ sent => sent
  | _ => None
  end.

(** An instance of the variables, for examples: integers for numbers,
    ASCII lower-casing, a [Metadata] that is the list of the pairs added
    and accepts everything.  [z_value] is the cast on the values that
    the type [MetadataItem] announces, strings, numbers and booleans;
    the examples use no other, and the embedding has no value for
    [null], an array or an object. *)
Definition z_truthy (n : Z) : bool := negb (bool_decide (n = 0)).

Definition z_value (v : unknown Z) : jsval :=
  match v with
  | UBool b => VBool b
  | UNumber n => VNum n
  | UString s => VStr s
  | _ => VUndefined
  end.

Definition plain_type_error (name : string) : error unit :=
  Error None VUndefined None None.

Definition list_add (md : list (jsstring * jsstring)) (k v : jsstring)
    : error unit + list (jsstring * jsstring) :=
  inr (md ++ [(k, v)]).


(** The handler and its parts under that instance, with the clock at
    1700000012345 ms and a client whose every call ends in [outcome]. *)
Abbreviation example_clock := 1700000012345.

Definition example_Check (outcome : call_outcome unit)
    : jsstring → channel → unknown Z → list (jsstring * jsstring) → call_outcome unit :=
  λ _ _ _ _, outcome.

Definition example_fetch (outcome : call_outcome unit)
    : string → string → jsstring + unknown Z → option (reply Z unit) :=
  fetch Z z_truthy z_value unit plain_type_error Auth.ascii_toLowerCase Auth.String_of
    (list (jsstring * jsstring)) [] list_add example_clock (example_Check outcome).


(** A request that carries a client key and one further entry. *)
Definition example_payload : unknown Z :=
  UObject
    [(JS.lit "target", UString (JS.lit "h:1"));
     (JS.lit "metadata",
      UArray [UObject [(JS.lit "key", UString (JS.lit "Client-Key"));
                       (JS.lit "value", UString (JS.lit "s3cr3t"))];
              UObject [(JS.lit "key", UString (JS.lit "x-id"));
                       (JS.lit "value", UNumber 7)]])].

End Http.

(** * Properties *)

(** ** Reading bytes *)

Lemma get_Some_bounds (buffer : list Z) (i b : Z) :
  Buf.get buffer i = Some b → 0 <= i < Z.of_nat (length buffer).
Proof.
  unfold Buf.get. case_decide as Hpos; [|done].
  intros Hlook%lookup_lt_Some. lia.
Qed.

Lemma get_in_range (buffer : list Z) (i : Z) :
  0 <= i < Z.of_nat (length buffer) → is_Some (Buf.get buffer i).
Proof.
  intros [H0 H1]. unfold Buf.get. rewrite decide_True by done.
  apply lookup_lt_is_Some. lia.
Qed.

(** ** The varint loop *)

Section varint.
Import Health.

Lemma varint_loop_total (buffer : list Z) :
  ∀ (fuel : nat) (offset value shift : Z) (reads : list Z),
    (0 <= offset → Z.of_nat (length buffer) - offset <= Z.of_nat fuel) →
    (offset < 0 → (1 <= fuel)%nat) →
    is_Some (varint_loop fuel buffer offset value shift reads).
Proof.
  induction fuel as [|fuel IH]; intros offset value shift reads Hpos Hneg; simpl.
  - case_decide; [|done]. destruct (decide (0 <= offset)); lia.
  - case_decide as Hlt; [|done].
    destruct (Buf.get buffer offset) as [byte|] eqn:Hget; [|done].
    apply get_Some_bounds in Hget.
    case_decide as Hbit; [done|]. apply IH; lia.
Qed.

Lemma readVarint_total (buffer : list Z) (offset : Z) :
  is_Some (readVarint buffer offset).
Proof. apply varint_loop_total; lia. Qed.

(** Every subscript of a run lies between the starting offset and the
    end of the buffer, and so does the final offset. *)
Lemma varint_loop_reads (buffer : list Z) :
  ∀ (fuel : nat) (offset value shift : Z) (reads : list Z) v o rs,
    varint_loop fuel buffer offset value shift reads = Some (v, o, rs) →
    ∃ new, rs = reads ++ new
         ∧ Forall (λ i, offset <= i < Z.of_nat (length buffer)) new
         ∧ offset <= o <= Z.max offset (Z.of_nat (length buffer)).
Proof.
  induction fuel as [|fuel IH]; intros offset value shift reads v o rs; simpl.
  - case_decide; [done|]. intros [= <- <- <-]. exists [].
    rewrite app_nil_r. split_and!; [done|constructor|lia|lia].
  - case_decide as Hlt; cycle 1.
    { intros [= <- <- <-]. exists []. rewrite app_nil_r.
      split_and!; [done|constructor|lia|lia]. }
    destruct (Buf.get buffer offset) as [byte|] eqn:Hget.
    + apply get_Some_bounds in Hget. case_decide as Hbit.
      * intros [= <- <- <-]. exists [offset].
        split_and!; [done|repeat constructor; lia|lia|lia].
      * intros Hrec. apply IH in Hrec as (new & -> & Hall & Ho).
        exists (offset :: new). split_and!.
        -- by rewrite <- app_assoc.
        -- constructor; [lia|]. eapply Forall_impl; [exact Hall|]. simpl. lia.
        -- lia.
        -- lia.
    + intros [= <- <- <-]. exists [offset].
      split_and!; [done|repeat constructor; lia|lia|lia].
Qed.

(** When no byte from the starting offset on has its high bit clear,
    the loop stops exactly at the end of the buffer. *)
Lemma varint_loop_unterminated (buffer : list Z) :
  ∀ (fuel : nat) (offset value shift : Z) (reads : list Z) v o rs,
    0 <= offset →
    (∀ i b, offset <= i → Buf.get buffer i = Some b → JS.and b 0x80 ≠ 0) →
    varint_loop fuel buffer offset value shift reads = Some (v, o, rs) →
    o = Z.max offset (Z.of_nat (length buffer)).
Proof.
  induction fuel as [|fuel IH]; intros offset value shift reads v o rs H0 Hcont; simpl.
  - case_decide; [done|]. intros [= <- <- <-]. lia.
  - case_decide as Hlt; cycle 1.
    { intros [= <- <- <-]. lia. }
    destruct (get_in_range buffer offset) as [byte Hget]; [lia|].
    rewrite Hget. rewrite decide_False by (eapply Hcont; [|exact Hget]; lia).
    intros Hrec. apply IH in Hrec; [lia|lia|].
    intros i b Hi. apply Hcont. lia.
Qed.

End varint.

(** C3.  For every buffer and every starting offset the varint loop
    returns, every index at which it subscripts the buffer lies below the
    buffer's length (and not before the starting offset), the final
    offset is not past the end of the buffer unless the loop started
    there, and when no byte with the high bit clear is found the loop
    stops exactly at the end of the buffer. *)
Theorem varint_never_reads_past_end (buffer : list Z) (offset : Z) :
  ∃ value offset' reads,
    Health.readVarint buffer offset = Some (value, offset', reads)
    ∧ Forall (λ i, offset <= i < Z.of_nat (length buffer)) reads
    ∧ offset <= offset' <= Z.max offset (Z.of_nat (length buffer))
    ∧ (0 <= offset →
       (∀ i b, offset <= i → Buf.get buffer i = Some b → JS.and b 0x80 ≠ 0) →
       offset' = Z.max offset (Z.of_nat (length buffer))).
Proof.
  destruct (readVarint_total buffer offset) as [[[value offset'] reads] Hrun].
  exists value, offset', reads. split; [exact Hrun|].
  unfold Health.readVarint in Hrun.
  destruct (varint_loop_reads _ _ _ _ _ _ _ _ _ Hrun) as (new & -> & Hall & Ho).
  split_and!; [exact Hall|lia|lia|].
  intros H0 Hcont. eapply varint_loop_unterminated; eauto.
Qed.

Lemma varint_never_reads_past_end_witness :
  ∃ value reads,
    Health.readVarint [0x08; 0x81; 0x82] 1 = Some (value, 3, reads)
    ∧ Forall (λ i, 1 <= i < 3) reads.
Proof.
  destruct (varint_never_reads_past_end [0x08; 0x81; 0x82] 1)
    as (value & offset' & reads & Hrun & Hreads & _ & Hend).
  assert (offset' = 3) as ->.
  { apply Hend; [lia|]. intros i b Hi Hget.
    pose proof (get_Some_bounds _ _ _ Hget) as Hb. simpl in Hb.
    assert (i = 1 ∨ i = 2) as [-> | ->] by lia;
      injection Hget as <-; vm_compute; discriminate. }
  exists value, reads. split; [exact Hrun | exact Hreads].
Defined.

(** ** Values the varint loop decodes correctly *)

Section varint_values.
Import Health.

Lemma ToInt32_small (x : Z) : - 2 ^ 31 <= x < 2 ^ 31 → JS.ToInt32 x = x.
Proof. intros Hx. unfold JS.ToInt32. rewrite Z.mod_small; lia. Qed.

(** Bits that do not overlap add up. *)
Lemma lor_shifted (v g s : Z) :
  0 <= s → 0 <= v < 2 ^ s → Z.lor v (g * 2 ^ s) = v + g * 2 ^ s.
Proof.
  intros Hs Hv.
  assert (Z.land v (g * 2 ^ s) = 0) as Hdisjoint.
  { apply Z.bits_inj'. intros m Hm. rewrite Z.land_spec, Z.bits_0.
    destruct (decide (m < s)).
    - rewrite Z.mul_pow2_bits_low by done. apply andb_false_r.
    - rewrite <- (Z.mod_small v (2 ^ s)) by done.
      rewrite Z.mod_pow2_bits_high by lia. done. }
  rewrite <- Z.lxor_lor by done. symmetry. by apply Z.add_nocarry_lxor.
Qed.

(** One more group of seven bits, as the loop accumulates it. *)
Lemma accumulate_group (v g s : Z) :
  0 <= s < 32 → 0 <= v < 2 ^ s → 0 <= g < 2 ^ 31 → v + g * 2 ^ s < 2 ^ 31 →
  JS.or v (JS.shl g s) = v + g * 2 ^ s.
Proof.
  intros Hs Hv Hg Hsum.
  assert (0 < 2 ^ s) by (apply Z.pow_pos_nonneg; lia).
  assert (0 <= g * 2 ^ s) by lia.
  unfold JS.or, JS.shl.
  change 31 with (Z.ones 5). rewrite Z.land_ones by lia.
  change (2 ^ 5) with 32. rewrite (Z.mod_small s) by lia.
  rewrite (ToInt32_small g) by lia.
  rewrite Z.shiftl_mul_pow2 by lia.
  rewrite (ToInt32_small (g * 2 ^ s)) by lia.
  rewrite (ToInt32_small (g * 2 ^ s)) by lia.
  rewrite (ToInt32_small v) by lia.
  rewrite lor_shifted by lia. apply ToInt32_small. lia.
Qed.

(** The two masks of the loop, on every byte. *)
Lemma byte_masks (b : Z) :
  0 <= b < 256 → JS.and b 0x7f = b mod 128 ∧ (JS.and b 0x80 = 0 ↔ b < 128).
Proof.
  intros Hb.
  assert (Forall (λ b, JS.and b 0x7f = b mod 128 ∧ (JS.and b 0x80 = 0 ↔ b < 128))
            (seqZ 0 256)) as Hall.
  { apply (bool_decide_unpack _). vm_compute. exact I. }
  rewrite Forall_forall in Hall. apply Hall, elem_of_seqZ. lia.
Qed.

Lemma get_app_middle (pre rest : list Z) (b : Z) :
  Buf.get (pre ++ b :: rest) (Z.of_nat (length pre)) = Some b.
Proof.
  unfold Buf.get. rewrite decide_True by lia. rewrite Nat2Z.id.
  by rewrite list_lookup_middle.
Qed.

(** The loop on the groups of [n], started after [pre] with the bits of
    the earlier groups in [value]. *)
Lemma varint_loop_groups :
  ∀ (groups : nat) (n : Z) (pre rest : list Z) (fuel : nat)
    (value shift : Z) (reads : list Z),
    (0 < groups)%nat → 0 <= n < 128 ^ Z.of_nat groups →
    0 <= shift < 31 → 0 <= value < 2 ^ shift →
    value + n * 2 ^ shift < 2 ^ 31 →
    (length (Varint.encode_groups groups n) <= fuel)%nat →
    ∃ reads',
      varint_loop fuel (pre ++ Varint.encode_groups groups n ++ rest)
        (Z.of_nat (length pre)) value shift reads =
      Some (value + n * 2 ^ shift,
            Z.of_nat (length pre + length (Varint.encode_groups groups n)), reads').
Proof.
  induction groups as [|groups IH];
    intros n pre rest fuel value shift reads Hgroups Hn Hshift Hvalue Hsum Hfuel.
  { lia. }
  assert (0 < 2 ^ shift) by (apply Z.pow_pos_nonneg; lia).
  cbn [Varint.encode_groups] in *.
  destruct (decide (n < 128)) as [Hlast|Hmore];
    (destruct fuel as [|fuel]; [simpl in Hfuel; lia|]).
  - cbn [varint_loop app]. rewrite decide_True by (rewrite length_app; simpl; lia).
    rewrite get_app_middle.
    destruct (byte_masks n ltac:(lia)) as [Hmask Hbit].
    rewrite decide_True by (by apply Hbit).
    rewrite Hmask, (Z.mod_small n) by lia.
    rewrite accumulate_group by lia.
    eexists. do 3 f_equal. simpl. lia.
  - pose proof (Z.div_mod n 128 ltac:(lia)).
    pose proof (Z.mod_pos_bound n 128 ltac:(lia)).
    set (q := n / 128) in *. set (r := n mod 128) in *.
    assert (128 * 2 ^ shift <= n * 2 ^ shift) by nia.
    assert (2 ^ (shift + 7) = 128 * 2 ^ shift) as Hpow.
    { rewrite Z.pow_add_r by lia. lia. }
    assert (shift + 7 < 31).
    { apply (Z.pow_lt_mono_r_iff 2); lia. }
    cbn [varint_loop app]. rewrite decide_True by (rewrite length_app; simpl; lia).
    rewrite get_app_middle.
    destruct (byte_masks (128 + r) ltac:(lia)) as [Hmask Hbit].
    rewrite decide_False by (rewrite Hbit; lia).
    rewrite Hmask.
    clearbody q r.
    replace ((128 + r) mod 128) with r by (Z.div_mod_to_equations; lia).
    rewrite accumulate_group by nia.
    destruct (IH q (pre ++ [128 + r]) rest fuel (value + r * 2 ^ shift) (shift + 7)
                (reads ++ [Z.of_nat (length pre)])) as [reads' Hrun].
    + destruct groups; [simpl in Hn|]; lia.
    + split; [lia|]. rewrite Nat2Z.inj_succ, Z.pow_succ_r in Hn by lia. lia.
    + lia.
    + rewrite Hpow. nia.
    + rewrite Hpow. nia.
    + simpl in Hfuel. lia.
    + exists reads'. rewrite <- app_assoc in Hrun. simpl in Hrun.
      rewrite length_app in Hrun. simpl in Hrun.
      replace (Z.of_nat (length pre) + 1) with (Z.of_nat (length pre + 1)) by lia.
      rewrite Hrun. do 3 f_equal; [rewrite Hpow; nia | simpl; lia].
Qed.

(** Below 2^31 the decoder inverts the reference encoder. *)
Lemma readVarint_encodeVarint (n : Z) (pre rest : list Z) :
  0 <= n < 2 ^ 31 →
  ∃ reads,
    readVarint (pre ++ Varint.encodeVarint n ++ rest) (Z.of_nat (length pre)) =
      Some (n, Z.of_nat (length pre + length (Varint.encodeVarint n)), reads).
Proof.
  intros Hn. unfold readVarint, Varint.encodeVarint.
  destruct (varint_loop_groups 10 n pre rest
              (S (length (pre ++ Varint.encode_groups 10 n ++ rest))) 0 0 [])
    as [reads Hrun];
    [lia | change (128 ^ Z.of_nat 10) with (2 ^ 70); lia | lia
    | change (2 ^ 0) with 1; lia | change (2 ^ 0) with 1; lia | | ].
  - rewrite !length_app. lia.
  - exists reads. rewrite Hrun. do 3 f_equal. change (2 ^ 0) with 1. lia.
Qed.

End varint_values.

(** ** The outer loop *)

Section parse.
Import Health.

(** A state at or past the end of the buffer is final. *)
Lemma parse_loop_exit (buffer : list Z) (fuel : nat) (st : pstate) :
  Z.of_nat (length buffer) <= offset st → parse_loop fuel buffer st = Some st.
Proof. intros Hend. destruct fuel; simpl; by rewrite decide_False by lia. Qed.

(** Rounds that can be made are rounds the loop makes. *)
Lemma parse_loop_rounds (buffer : list Z) :
  ∀ (n k : nat) (st st' : pstate),
    rounds n buffer st = Some st' →
    parse_loop (n + k) buffer st = parse_loop k buffer st'.
Proof.
  induction n as [|n IH]; intros k st st' Hn; simpl in *.
  - by injection Hn as ->.
  - unfold round in Hn. case_decide as Hlt; [|done].
    destruct (Buf.get buffer (offset st)) as [tag|]; [|done]. simpl in Hn.
    destruct (parse_field buffer st tag) as [st1|]; [|done]. simpl in *.
    by apply IH.
Qed.

(** One more round after [n] rounds. *)
Lemma rounds_snoc (buffer : list Z) :
  ∀ (n : nat) (st0 st st' : pstate),
    rounds n buffer st0 = Some st → round buffer st = Some st' →
    rounds (S n) buffer st0 = Some st'.
Proof.
  induction n as [|n IH]; intros st0 st st' Hn Hround.
  - injection Hn as ->. simpl. by rewrite Hround.
  - change (rounds (S n) buffer st0) with (round buffer st0 ≫= rounds n buffer) in Hn.
    change (round buffer st0 ≫= rounds (S n) buffer = Some st').
    destruct (round buffer st0) as [st1|]; [|done]. simpl in *. by eapply IH.
Qed.

(** A last round that leaves the offset at or past the end gives the
    function's result, whatever fuel is left over. *)
Lemma parse_last_round (buffer : list Z) (n fuel : nat) (st st' : pstate) :
  rounds n buffer initial = Some st →
  round buffer st = Some st' →
  Z.of_nat (length buffer) <= offset st' →
  (n < fuel)%nat →
  parseProtobufResponse fuel buffer = Some (result st', console st').
Proof.
  intros Hn Hround Hend Hfuel. unfold parseProtobufResponse.
  pose proof (rounds_snoc _ _ _ _ _ Hn Hround) as HSn.
  replace fuel with (S n + (fuel - S n))%nat by lia.
  rewrite (parse_loop_rounds _ _ _ _ _ HSn).
  by rewrite parse_loop_exit.
Qed.

(** [subarray] from a position inside the buffer to a position at or
    past its end is the rest of the buffer. *)
Lemma subarray_to_end (buffer : list Z) (p q : Z) :
  0 <= p <= Z.of_nat (length buffer) → Z.of_nat (length buffer) <= q →
  Buf.subarray buffer p q = drop (Z.to_nat p) buffer.
Proof.
  intros Hp Hq. unfold Buf.subarray, Buf.adjustOffset.
  rewrite !decide_False by lia.
  rewrite (Z.min_l p) by lia. rewrite (Z.min_r q) by lia.
  apply take_ge. rewrite length_drop. lia.
Qed.

End parse.

(** ** Unknown wire types and truncated fields *)

Section halting.
Import Health.

Lemma round_unknown_wire_type (buffer : list Z) (st : pstate) (tag : Z) :
  Buf.get buffer (offset st) = Some tag →
  JS.and tag 0x07 ≠ 0 → JS.and tag 0x07 ≠ 2 →
  round buffer st =
    Some (PState (Z.of_nat (length buffer)) (result st)
                 (console st ++ [warning (JS.and tag 0x07) (offset st + 1)])).
Proof.
  intros Hget H0 H2. pose proof (get_Some_bounds _ _ _ Hget) as Hb.
  unfold round. rewrite decide_True by lia. rewrite Hget. simpl.
  unfold parse_field. by rewrite !decide_False by done.
Qed.


Lemma round_clamped_payload (buffer : list Z) (st : pstate) (tag len p : Z) (reads : list Z) :
  Buf.get buffer (offset st) = Some tag →
  JS.and tag 0x07 = 2 →
  readVarint buffer (offset st + 1) = Some (len, p, reads) →
  Z.of_nat (length buffer) <= p + len →
  round buffer st =
    Some (PState (p + len)
                 (store_string (JS.sar tag 3) (Utf8.decode (drop (Z.to_nat p) buffer))
                               (result st))
                 (console st)).
Proof.
  intros Hget Hwire Hrun Hend. pose proof (get_Some_bounds _ _ _ Hget) as Hb.
  unfold round. rewrite decide_True by lia. rewrite Hget. simpl.
  unfold parse_field. rewrite decide_False by (rewrite Hwire; done).
  rewrite decide_True by done. rewrite Hrun. simpl.
  unfold readVarint in Hrun.
  apply varint_loop_reads in Hrun as (new & _ & _ & Ho).
  rewrite subarray_to_end by lia. done.
Qed.

End halting.

(** C6.  When, after any number of rounds, the decoder meets a tag whose
    wire type is neither 0 nor 2, it writes one warning that names the
    wire type and the tag's offset, and returns: the result is exactly
    the object built by the rounds before that tag, so the fields parsed
    before it remain and no byte after it is interpreted. *)
Theorem unknown_wire_type_halts
    (buffer : list Z) (n fuel : nat) (st : Health.pstate) (tag : Z) :
  Health.rounds n buffer Health.initial = Some st →
  Buf.get buffer (Health.offset st) = Some tag →
  JS.and tag 0x07 ≠ 0 → JS.and tag 0x07 ≠ 2 →
  (n < fuel)%nat →
  Health.parseProtobufResponse fuel buffer =
    Some (Health.result st,
          Health.console st ++
            ["Unknown wire type " +:+ pretty (JS.and tag 0x07) +:+
             " at offset " +:+ pretty (Health.offset st)]).
Proof.
  intros Hn Hget H0 H2 Hfuel.
  pose proof (round_unknown_wire_type _ _ _ Hget H0 H2) as Hround.
  rewrite (parse_last_round _ _ _ _ _ Hn Hround); [|simpl; lia|done].
  simpl. unfold Health.warning.
  by replace (Health.offset st + 1 - 1) with (Health.offset st) by lia.
Qed.

Lemma unknown_wire_type_halts_witness :
  Health.parseProtobufResponse 2 [0x08; 0x01; 0x0d; 0x08; 0x02] =
    Some (Health.store_varint 1 1 ∅, ["Unknown wire type 5 at offset 2"]).
Proof.
  apply (unknown_wire_type_halts [0x08; 0x01; 0x0d; 0x08; 0x02] 1 2
           (Health.PState 2 (Health.store_varint 1 1 ∅) []) 0x0d);
    [reflexivity | reflexivity | vm_compute; discriminate
    | vm_compute; discriminate | lia].
Defined.

(** ** What a truncated field leaves in the object *)

Section truncation.
Import Health.

(** The generic key is none of the named ones. *)
Lemma field_key_not_known (f : Z) :
  field_key f ∉ ["status"; "latency"; "error_code"; "error_message"].
Proof.
  unfold field_key. simpl. intros Hin.
  repeat (apply elem_of_cons in Hin as [Heq | Hin]; [discriminate Heq|]).
  by apply elem_of_nil in Hin.
Qed.




End truncation.




(** An earlier value under the keys of the truncated field is replaced:
    the second field 1 below is cut short after one byte, and its bits
    take the place of the 2 that the first had written. *)
Example truncated_field_overwrites :
  Health.parseProtobufResponse 2 [0x08; 0x02; 0x08; 0x81] =
    Some (<["status" := VNum 1]> (<["field_1" := VNum 1]> ∅), []).
Proof. reflexivity. Qed.

(** A length cut short by the end of the buffer can be negative in
    32-bit arithmetic.  The offset then falls back into the buffer, here
    to 0, and the decoder does not return. *)
Example truncated_length_loops (fuel : nat) :
  (∃ reads, Health.readVarint [0x0a; 0xFA; 0xFF; 0xFF; 0xFF; 0x8F] 1 = Some (-6, 6, reads))
  ∧ Health.parseProtobufResponse fuel [0x0a; 0xFA; 0xFF; 0xFF; 0xFF; 0x8F] = None.
Proof.
  split; [eexists; reflexivity|].
  assert (∀ (fuel : nat) (result : gmap string jsval) (console : list string),
            Health.parse_loop fuel [0x0a; 0xFA; 0xFF; 0xFF; 0xFF; 0x8F]
              (Health.PState 0 result console) = None) as Hloop.
  { clear fuel. induction fuel as [|fuel IH]; intros result console; [reflexivity|].
    change (Health.parse_loop (S fuel) [0x0a; 0xFA; 0xFF; 0xFF; 0xFF; 0x8F]
              (Health.PState 0 result console))
      with (Health.round [0x0a; 0xFA; 0xFF; 0xFF; 0xFF; 0x8F] (Health.PState 0 result console)
              ≫= Health.parse_loop fuel [0x0a; 0xFA; 0xFF; 0xFF; 0xFF; 0x8F]).
    change (Health.round [0x0a; 0xFA; 0xFF; 0xFF; 0xFF; 0x8F] (Health.PState 0 result console))
      with (Some (Health.PState 0 (Health.store_string 1 [] result) console)).
    simpl. apply IH. }
  unfold Health.parseProtobufResponse, Health.initial. by rewrite Hloop.
Qed.

(** ** Status classification *)

(** C9.  [statusToString] maps 1 and "SERVING" to SERVING, 2 and
    "NOT_SERVING" to NOT_SERVING, 3 and "SERVICE_UNKNOWN" to
    SERVICE_UNKNOWN and every other value to UNKNOWN; [isServing] holds
    exactly when the classification is SERVING; and the buffer
    [0x08, 0x01] decodes to status 1, classified SERVING and serving. *)
Theorem status_classification (status : jsval) :
  (status = VNum 1 ∨ status = VStr (JS.lit "SERVING") →
   Status.statusToString status = "SERVING")
  ∧ (status = VNum 2 ∨ status = VStr (JS.lit "NOT_SERVING") →
     Status.statusToString status = "NOT_SERVING")
  ∧ (status = VNum 3 ∨ status = VStr (JS.lit "SERVICE_UNKNOWN") →
     Status.statusToString status = "SERVICE_UNKNOWN")
  ∧ (status ∉ [VNum 1; VStr (JS.lit "SERVING"); VNum 2; VStr (JS.lit "NOT_SERVING");
               VNum 3; VStr (JS.lit "SERVICE_UNKNOWN")] →
     Status.statusToString status = "UNKNOWN")
  ∧ (Status.isServing status = true ↔ Status.statusToString status = "SERVING")
  ∧ ∃ response,
      Health.parseProtobufResponse 1 [0x08; 0x01] = Some (response, [])
      ∧ Status.rawStatus response = VNum 1
      ∧ Status.statusToString (Status.rawStatus response) = "SERVING"
      ∧ Status.isServing (Status.rawStatus response) = true.
Proof.
  split_and!.
  - by intros [-> | ->].
  - by intros [-> | ->].
  - by intros [-> | ->].
  - intros Hnot. unfold Status.statusToString.
    rewrite !decide_False; [done|..]; intros [-> | ->]; apply Hnot; set_solver.
  - unfold Status.isServing, Status.statusToString.
    rewrite bool_decide_eq_true.
    repeat case_decide; split; intros; try done; tauto.
  - eexists. split_and!; reflexivity.
Qed.

Lemma status_classification_witness :
  Status.statusToString (VNum 2) = "NOT_SERVING"
  ∧ Status.statusToString (VStr (JS.lit "serving")) = "UNKNOWN"
  ∧ Status.isServing (VStr (JS.lit "SERVING")) = true.
Proof.
  split_and!.
  - apply (status_classification (VNum 2)). by left.
  - apply (status_classification (VStr (JS.lit "serving"))).
    intros Hin. repeat (apply elem_of_cons in Hin as [Heq | Hin]; [discriminate Heq|]).
    by apply elem_of_nil in Hin.
  - destruct (status_classification (VStr (JS.lit "SERVING")))
      as (Hserving & _ & _ & _ & Hiff & _).
    apply Hiff, Hserving. by right.
Defined.

(** ** Where the loop does advance *)

Section progress.
Import Health.

(** A round is always possible while the loop goes on. *)
Lemma parse_field_total (buffer : list Z) (st : pstate) (tag : Z) :
  is_Some (parse_field buffer st tag).
Proof.
  unfold parse_field.
  destruct (readVarint_total buffer (offset st + 1)) as [[[v o] rs] Hrun].
  repeat case_decide; rewrite ?Hrun; simpl; by eexists.
Qed.

(** When no decoded length is negative, a round moves the offset
    forward. *)
Lemma parse_field_advances (buffer : list Z) (st st' : pstate) (tag : Z) :
  lengths_nonneg buffer →
  Buf.get buffer (offset st) = Some tag →
  parse_field buffer st tag = Some st' →
  offset st < offset st'.
Proof.
  intros Hnonneg Hget. pose proof (get_Some_bounds _ _ _ Hget) as Hb.
  unfold parse_field.
  destruct (readVarint buffer (offset st + 1)) as [[[v o] rs]|] eqn:Hrun.
  - pose proof Hrun as Hbounds. unfold readVarint in Hbounds.
    apply varint_loop_reads in Hbounds as (_ & _ & _ & Ho).
    case_decide as Hw0; [|case_decide as Hw2]; simpl.
    + intros [= <-]. simpl. lia.
    + pose proof (Hnonneg _ _ _ _ _ Hget Hw2 Hrun). intros [= <-]. simpl. lia.
    + intros [= <-]. simpl. lia.
  - case_decide as Hw0; [done|]. case_decide as Hw2; [done|].
    intros [= <-]. simpl. lia.
Qed.

(** So the loop returns within as many rounds as bytes are left. *)
Lemma parse_loop_returns (buffer : list Z) :
  lengths_nonneg buffer →
  ∀ (fuel : nat) (st : pstate),
    Z.of_nat (length buffer) - offset st <= Z.of_nat fuel →
    is_Some (parse_loop fuel buffer st).
Proof.
  intros Hnonneg. induction fuel as [|fuel IH]; intros st Hfuel; simpl.
  - rewrite decide_False by lia. by eexists.
  - case_decide as Hlt; [|by eexists].
    destruct (Buf.get buffer (offset st)) as [tag|] eqn:Hget; [|by eexists].
    destruct (parse_field_total buffer st tag) as [st' Hfield].
    rewrite Hfield. simpl. apply IH.
    pose proof (parse_field_advances _ _ _ _ Hnonneg Hget Hfield). lia.
Qed.

Lemma parseProtobufResponse_returns (buffer : list Z) :
  lengths_nonneg buffer →
  is_Some (parseProtobufResponse (length buffer) buffer).
Proof.
  intros Hnonneg. unfold parseProtobufResponse.
  destruct (parse_loop_returns buffer Hnonneg (length buffer) initial) as [st Hst];
    [simpl; lia|].
  rewrite Hst. by eexists.
Qed.

(** The [catch] clause is never taken: no value of the result is a raw
    buffer. *)
Lemma store_varint_no_raw (fieldNumber value : Z) (result : gmap string jsval) :
  no_raw_bytes result → no_raw_bytes (store_varint fieldNumber value result).
Proof.
  intros Hres. unfold store_varint, no_raw_bytes.
  case_decide; repeat (apply map_Forall_insert_2; [done|]); done.
Qed.

Lemma store_string_no_raw (fieldNumber : Z) (str : list Z) (result : gmap string jsval) :
  no_raw_bytes result → no_raw_bytes (store_string fieldNumber str result).
Proof.
  intros Hres. unfold store_string, no_raw_bytes.
  repeat case_decide; repeat (apply map_Forall_insert_2; [done|]); done.
Qed.

Lemma parse_field_no_raw (buffer : list Z) (st st' : pstate) (tag : Z) :
  parse_field buffer st tag = Some st' →
  no_raw_bytes (result st) → no_raw_bytes (result st').
Proof.
  unfold parse_field. intros Hfield Hres.
  destruct (readVarint buffer (offset st + 1)) as [[[v o] rs]|];
    repeat case_decide; simpl in Hfield; try done;
    injection Hfield as <-; simpl;
    auto using store_varint_no_raw, store_string_no_raw.
Qed.

Lemma parse_loop_no_raw (buffer : list Z) :
  ∀ (fuel : nat) (st st' : pstate),
    parse_loop fuel buffer st = Some st' →
    no_raw_bytes (result st) → no_raw_bytes (result st').
Proof.
  induction fuel as [|fuel IH]; intros st st'; simpl.
  - case_decide; [|by intros [= <-]].
    destruct (Buf.get buffer (offset st)); [done|by intros [= <-]].
  - case_decide; [|by intros [= <-]].
    destruct (Buf.get buffer (offset st)) as [tag|]; [|by intros [= <-]].
    destruct (parse_field buffer st tag) as [st1|] eqn:Hfield; [|done]. simpl.
    intros Hloop Hres. eapply IH; [exact Hloop|].
    by eapply parse_field_no_raw.
Qed.

Lemma parseProtobufResponse_no_raw (fuel : nat) (buffer : list Z)
    (response : gmap string jsval) (console : list string) :
  parseProtobufResponse fuel buffer = Some (response, console) →
  no_raw_bytes response.
Proof.
  unfold parseProtobufResponse.
  destruct (parse_loop fuel buffer initial) as [st|] eqn:Hloop; [|done].
  simpl. intros [= <- <-]. eapply parse_loop_no_raw; [exact Hloop|].
  apply map_Forall_empty.
Qed.

End progress.

(** ** Inputs on which the decoder goes wrong *)

Section defects.
Import Health.

Lemma looping_length : ∃ reads, readVarint looping_buffer 1 = Some (-6, 6, reads).
Proof. eexists. reflexivity. Qed.

Lemma looping_round (result : gmap string jsval) (console : list string) :
  round looping_buffer (PState 0 result console) =
    Some (PState 0 (store_string 1 [] result) console).
Proof. reflexivity. Qed.

Lemma looping_parse_loop :
  ∀ (fuel : nat) (result : gmap string jsval) (console : list string),
    parse_loop fuel looping_buffer (PState 0 result console) = None.
Proof.
  induction fuel as [|fuel IH]; intros result console; [reflexivity|].
  change (parse_loop (S fuel) looping_buffer (PState 0 result console))
    with (round looping_buffer (PState 0 result console)
            ≫= parse_loop fuel looping_buffer).
  rewrite looping_round. simpl. apply IH.
Qed.

End defects.

(** C10 (what the code does on a failing input).  On the six-byte buffer
    [looping_buffer] the decoded length is -6, one round leaves the
    offset at 0, and the loop never reaches its exit: no amount of fuel
    makes [parseProtobufResponse] return. *)
Theorem decode_loops_forever (fuel : nat) :
  (∃ reads, Health.readVarint looping_buffer 1 = Some (-6, 6, reads))
  ∧ Health.offset <$> Health.round looping_buffer Health.initial = Some 0
  ∧ Health.parseProtobufResponse fuel looping_buffer = None.
Proof.
  split_and!; [apply looping_length | reflexivity |].
  unfold Health.parseProtobufResponse, Health.initial.
  by rewrite looping_parse_loop.
Qed.

(** C7 (what the code does on a failing input).  The payload of the
    field below is the single byte 0xFF, which is not UTF-8; the decoder
    records the one-character string U+FFFD under [field_2] and
    [latency], not the raw byte: [toString] never throws, so the [catch]
    clause is never entered. *)
Theorem invalid_utf8_payload_replaced :
  Health.parseProtobufResponse 1 [0x12; 0x01; 0xFF] =
    Some (<["latency" := VStr [0xFFFD]]> (<["field_2" := VStr [0xFFFD]]> ∅), [])
  ∧ Utf8.decode [0xFF] = [Utf8.replacement]
  ∧ ∀ data, is_Some (Health.toString_utf8 data).
Proof. split_and!; [reflexivity | reflexivity | intros data; by exists (Utf8.decode data)]. Qed.

(** C4 (what the code does on a failing input).  The varint of
    2^32 - 1 is five bytes long; the decoder, accumulating with 32-bit
    signed operators, returns -1 for it. *)
Theorem varint_above_31_bits_wraps :
  Varint.encodeVarint (2 ^ 32 - 1) = [0xFF; 0xFF; 0xFF; 0xFF; 0x0F]
  ∧ (∃ reads,
       Health.readVarint (Varint.encodeVarint (2 ^ 32 - 1)) 0 = Some (-1, 5, reads))
  ∧ Health.parseProtobufResponse 1 (0x08 :: Varint.encodeVarint (2 ^ 32 - 1)) =
      Some (<["status" := VNum (-1)]> (<["field_1" := VNum (-1)]> ∅), []).
Proof. split_and!; [reflexivity | eexists; reflexivity | reflexivity]. Qed.

(** C2 (what the code does on a failing input).  For a service name of
    128 letters the encoder writes the tag, the single byte 0x80 and the
    128 bytes of the name; the varint of 128 is the two bytes 0x80 0x01. *)
Theorem long_service_length_byte :
  Health.requestSerialize (Some (replicate 128 0x61)) =
    [0x0a; 0x80] ++ replicate 128 0x61
  ∧ Varint.encodeVarint 128 = [0x80; 0x01]
  ∧ Health.requestSerialize (Some (replicate 128 0x61)) ≠
      [0x0a] ++ Varint.encodeVarint 128 ++ Utf8.encode (replicate 128 0x61).
Proof. split_and!; [reflexivity | reflexivity | vm_compute; discriminate]. Qed.

(** ** UTF-8: decoding what was encoded *)

Section utf8.
Import Utf8.

Ltac split64 x q r :=
  pose proof (Z.div_mod x 64 ltac:(lia));
  pose proof (Z.mod_pos_bound x 64 ltac:(lia));
  set (q := x / 64) in *; set (r := x mod 64) in *; clearbody q r.

Lemma run_step (st st' : dstate) (b : Z) (bs out : list Z) :
  step st b = (st', out) → run st (b :: bs) = out ++ run st' bs.
Proof. intros Hstep. simpl. by rewrite Hstep. Qed.

Lemma step_ascii (b : Z) : b <= 0x7F → step idle b = (idle, [b]).
Proof. intros Hb. unfold step, lead. simpl. by rewrite decide_True. Qed.

Lemma step_lead2 (b : Z) :
  0xC2 <= b <= 0xDF →
  step idle b = ({| cp := b - 0xC0; needed := 1; lower := 0x80; upper := 0xBF |}, []).
Proof.
  intros Hb. unfold step, lead. simpl.
  rewrite decide_False by lia. by rewrite decide_True.
Qed.

Lemma step_lead3 (b : Z) :
  0xE0 <= b <= 0xEF →
  step idle b =
    ({| cp := b - 0xE0; needed := 2;
        lower := if decide (b = 0xE0) then 0xA0 else 0x80;
        upper := if decide (b = 0xED) then 0x9F else 0xBF |}, []).
Proof.
  intros Hb. unfold step, lead. simpl.
  rewrite !decide_False by lia. by rewrite decide_True.
Qed.

Lemma step_lead4 (b : Z) :
  0xF0 <= b <= 0xF4 →
  step idle b =
    ({| cp := b - 0xF0; needed := 3;
        lower := if decide (b = 0xF0) then 0x90 else 0x80;
        upper := if decide (b = 0xF4) then 0x8F else 0xBF |}, []).
Proof.
  intros Hb. unfold step, lead. simpl.
  rewrite !decide_False by lia. by rewrite decide_True.
Qed.

Lemma step_last (c lo hi b : Z) :
  lo <= b <= hi →
  step {| cp := c; needed := 1; lower := lo; upper := hi |} b =
    (idle, [c * 64 + (b - 0x80)]).
Proof. intros Hb. unfold step. simpl. by rewrite decide_True. Qed.

Lemma step_more (c lo hi b : Z) (n : nat) :
  lo <= b <= hi →
  step {| cp := c; needed := S (S n); lower := lo; upper := hi |} b =
    ({| cp := c * 64 + (b - 0x80); needed := S n; lower := 0x80; upper := 0xBF |}, []).
Proof. intros Hb. unfold step. simpl. by rewrite decide_True. Qed.

Lemma run_encode_cp (c : Z) (rest : list Z) :
  0 <= c < 0x110000 → ¬ (0xD800 <= c <= 0xDFFF) →
  run idle (encode_cp c ++ rest) = c :: run idle rest.
Proof.
  intros Hc Hs. unfold encode_cp.
  split64 c q1 r1. split64 q1 q2 r2. split64 q2 q3 r3.
  destruct (decide (c < 0x80));
    [|destruct (decide (c < 0x800)); [|destruct (decide (c < 0x10000))]];
  rewrite <- ?app_comm_cons.
  - erewrite run_step; [|apply step_ascii; lia]. done.
  - erewrite run_step; [|apply step_lead2; lia].
    erewrite run_step; [|apply step_last; lia].
    simpl. f_equal. lia.
  - erewrite run_step; [|apply step_lead3; lia].
    erewrite run_step; [|apply step_more; repeat case_decide; lia].
    erewrite run_step; [|apply step_last; lia].
    simpl. f_equal. lia.
  - erewrite run_step; [|apply step_lead4; lia].
    erewrite run_step; [|apply step_more; repeat case_decide; lia].
    erewrite run_step; [|apply step_more; lia].
    erewrite run_step; [|apply step_last; lia].
    simpl. f_equal. lia.
Qed.

Lemma units_of_scalar (u : Z) : u < 0x10000 → units_of_cp u = [u].
Proof. intros Hu. unfold units_of_cp. by rewrite decide_True. Qed.

Lemma units_of_pair (hi lo : Z) :
  is_high hi = true → is_low lo = true → units_of_cp (pair_cp hi lo) = [hi; lo].
Proof.
  unfold is_high, is_low, units_of_cp, pair_cp. rewrite !bool_decide_eq_true.
  intros Hhi Hlo. rewrite decide_False by lia. f_equal; [|f_equal]; Z.div_mod_to_equations; lia.
Qed.

Lemma pair_cp_range (hi lo : Z) :
  is_high hi = true → is_low lo = true → 0x10000 <= pair_cp hi lo < 0x110000.
Proof.
  unfold is_high, is_low, pair_cp. rewrite !bool_decide_eq_true. lia.
Qed.

Lemma run_replacement (rest : list Z) :
  run idle (replacement_bytes ++ rest) = replacement :: run idle rest.
Proof. apply (run_encode_cp replacement); unfold replacement; lia. Qed.

(** The shape of the three recursive functions on a string of two code
    units and more. *)
Lemma encode_cons2 (u v : Z) (s : list Z) :
  encode (u :: v :: s) =
    if is_high u then
      if is_low v then encode_cp (pair_cp u v) ++ encode s
      else replacement_bytes ++ encode (v :: s)
    else if is_low u then replacement_bytes ++ encode (v :: s)
    else encode_cp u ++ encode (v :: s).
Proof. reflexivity. Qed.

Lemma toWellFormed_cons2 (u v : Z) (s : list Z) :
  toWellFormed (u :: v :: s) =
    if is_high u then
      if is_low v then u :: v :: toWellFormed s
      else replacement :: toWellFormed (v :: s)
    else if is_low u then replacement :: toWellFormed (v :: s)
    else u :: toWellFormed (v :: s).
Proof. reflexivity. Qed.

Lemma isWellFormed_cons2 (u v : Z) (s : list Z) :
  isWellFormed (u :: v :: s) =
    if is_high u then is_low v && isWellFormed s
    else if is_low u then false
    else isWellFormed (v :: s).
Proof. reflexivity. Qed.

Lemma decode_cons (c : Z) (rest : list Z) :
  0 <= c < 0x110000 → ¬ (0xD800 <= c <= 0xDFFF) →
  decode (encode_cp c ++ rest) = units_of_cp c ++ decode rest.
Proof. intros Hc Hs. unfold decode. by rewrite run_encode_cp, bind_cons. Qed.

Lemma decode_replacement (rest : list Z) :
  decode (replacement_bytes ++ rest) = replacement :: decode rest.
Proof. unfold decode. by rewrite run_replacement, bind_cons. Qed.

(** Decoding what was encoded: the statement for [s] and for [s] with
    one more code unit in front, so that the induction reaches the string
    that follows a surrogate pair. *)
Lemma decode_encode_pairs (s : list Z) :
  (code_units s → decode (encode s) = toWellFormed s)
  ∧ (∀ u, code_units (u :: s) → decode (encode (u :: s)) = toWellFormed (u :: s)).
Proof.
  unfold code_units. induction s as [|v s [IH1 IH2]].
  - split; [done|]. intros u [Hu _]%Forall_cons. simpl.
    destruct (is_high u) eqn:Hhi; [done|]. destruct (is_low u) eqn:Hlo; [done|].
    unfold is_high, is_low in *. rewrite bool_decide_eq_false in Hhi, Hlo.
    rewrite decode_cons by lia. by rewrite units_of_scalar by lia.
  - split; [apply IH2|]. intros u [Hu Hrest]%Forall_cons.
    pose proof Hrest as [_ Hs]%Forall_cons.
    rewrite encode_cons2, toWellFormed_cons2.
    destruct (is_high u) eqn:Hhi; [destruct (is_low v) eqn:Hlo|].
    + pose proof (pair_cp_range _ _ Hhi Hlo).
      rewrite decode_cons by lia. rewrite units_of_pair by done.
      simpl. do 2 f_equal. by apply IH1.
    + rewrite decode_replacement. f_equal. by apply IH2.
    + destruct (is_low u) eqn:Hlo.
      * rewrite decode_replacement. f_equal. by apply IH2.
      * unfold is_high, is_low in Hhi, Hlo. rewrite bool_decide_eq_false in Hhi, Hlo.
        rewrite decode_cons by lia. rewrite units_of_scalar by lia.
        simpl. f_equal. by apply IH2.
Qed.

(** A string comes back from its UTF-8 bytes with U+FFFD in place of
    its unpaired surrogates. *)
Lemma decode_encode (s : list Z) : code_units s → decode (encode s) = toWellFormed s.
Proof. apply decode_encode_pairs. Qed.

Lemma toWellFormed_pairs (s : list Z) :
  (isWellFormed s = true → toWellFormed s = s)
  ∧ (∀ u, isWellFormed (u :: s) = true → toWellFormed (u :: s) = u :: s).
Proof.
  induction s as [|v s [IH1 IH2]].
  - split; [done|]. intros u. simpl.
    destruct (is_high u); [done|]. by destruct (is_low u).
  - split; [apply IH2|]. intros u.
    rewrite isWellFormed_cons2, toWellFormed_cons2.
    destruct (is_high u).
    + intros [-> Hwf]%andb_true_iff. do 2 f_equal. by apply IH1.
    + destruct (is_low u); [done|]. intros Hwf. f_equal. by apply IH2.
Qed.

(** A string without unpaired surrogates is left as it is. *)
Lemma toWellFormed_id (s : list Z) : isWellFormed s = true → toWellFormed s = s.
Proof. apply toWellFormed_pairs. Qed.

End utf8.

(** ** The request encoder and the decoder together *)

Section request.
Import Health.

(** A length below 128 is its own single-byte varint. *)
Lemma short_length_byte (L : Z) :
  0 <= L < 128 → JS.and L 0x80 = 0 ∧ JS.or 0 (JS.shl (JS.and L 0x7f) 0) = L.
Proof.
  intros HL.
  assert (Forall (λ L, JS.and L 0x80 = 0 ∧ JS.or 0 (JS.shl (JS.and L 0x7f) 0) = L)
            (seqZ 0 128)) as Hall.
  { apply (bool_decide_unpack _). vm_compute. exact I. }
  rewrite Forall_forall in Hall. apply Hall, elem_of_seqZ. lia.
Qed.

Lemma readVarint_short_length (L : Z) (bytes : list Z) :
  0 <= L < 128 → readVarint (0x0a :: L :: bytes) 1 = Some (L, 2, [1]).
Proof.
  intros HL. destruct (short_length_byte L HL) as [Hbit Hval].
  unfold readVarint.
  change (varint_loop (S (length (0x0a :: L :: bytes))) (0x0a :: L :: bytes) 1 0 0 [])
    with (if decide (1 < Z.of_nat (length (0x0a :: L :: bytes))) then
            if decide (JS.and L 0x80 = 0)
            then Some (JS.or 0 (JS.shl (JS.and L 0x7f) 0), 2, [1])
            else varint_loop (length (0x0a :: L :: bytes)) (0x0a :: L :: bytes) 2
                   (JS.or 0 (JS.shl (JS.and L 0x7f) 0)) 7 [1]
          else Some (0, 1, [])).
  rewrite decide_True by (simpl length; lia).
  rewrite decide_True by done. by rewrite Hval.
Qed.

Lemma requestSerialize_short (s : list Z) :
  s ≠ [] → (length (Utf8.encode s) <= 127)%nat →
  requestSerialize (Some s) = 0x0a :: Z.of_nat (length (Utf8.encode s)) :: Utf8.encode s.
Proof.
  intros Hs Hlen. unfold requestSerialize. simpl default.
  rewrite decide_False by (by destruct s).
  unfold Buf.from_array. simpl. do 2 f_equal. apply Z.mod_small. lia.
Qed.

End request.

(** The spec's example: the request for the service "OK". *)
Example requestSerialize_OK :
  Health.requestSerialize (Some (JS.lit "OK")) = [0x0a; 0x02; 0x4f; 0x4b].
Proof. reflexivity. Qed.

(** Up to 127 bytes the single length byte is the varint of the length. *)
Lemma requestSerialize_short_varint (s : list Z) :
  s ≠ [] → (length (Utf8.encode s) <= 127)%nat →
  Health.requestSerialize (Some s) =
    [0x0a] ++ Varint.encodeVarint (Z.of_nat (length (Utf8.encode s))) ++ Utf8.encode s.
Proof.
  intros Hs Hlen. rewrite requestSerialize_short by done.
  unfold Varint.encodeVarint. simpl. by rewrite decide_True by lia.
Qed.

(** C1 (amended).  An absent or empty service name is encoded as the
    empty buffer, which decodes to the empty object.  For every
    non-empty service string whose UTF-8 encoding has at most 127 bytes,
    decoding the encoded request returns, and returns the object whose
    only property is [field_1] (no [error_message], no other field, no
    warning); [field_1] holds the string with U+FFFD in place of every
    unpaired surrogate, which is the string itself when it has none. *)
Theorem service_round_trip (s : list Z) (fuel : nat) :
  Health.requestSerialize None = []
  ∧ Health.requestSerialize (Some []) = []
  ∧ Health.parseProtobufResponse fuel [] = Some (∅, [])
  ∧ (Utf8.code_units s → s ≠ [] →
     (length (Utf8.encode s) <= 127)%nat → (0 < fuel)%nat →
     Health.parseProtobufResponse fuel (Health.requestSerialize (Some s)) =
       Some (<["field_1" := VStr (Utf8.toWellFormed s)]> ∅, [])
     ∧ (Utf8.isWellFormed s = true → Utf8.toWellFormed s = s)).
Proof.
  split_and!; [done | done | by destruct fuel |].
  intros Hunits Hs Hlen Hfuel. split; [|apply toWellFormed_id].
  rewrite requestSerialize_short by done.
  set (bytes := Utf8.encode s) in *.
  set (buffer := 0x0a :: Z.of_nat (length bytes) :: bytes).
  assert (Health.round buffer Health.initial =
            Some (Health.PState (2 + Z.of_nat (length bytes))
                    (Health.store_string (JS.sar 0x0a 3)
                       (Utf8.decode (drop (Z.to_nat 2) buffer)) ∅) [])) as Hround.
  { apply (round_clamped_payload buffer Health.initial 0x0a _ 2 [1]).
    - reflexivity.
    - reflexivity.
    - apply readVarint_short_length. lia.
    - subst buffer. simpl length. lia. }
  rewrite (parse_last_round buffer 0 fuel _ _ eq_refl Hround);
    [|subst buffer; simpl; lia|done].
  cbn [Health.result Health.console]. subst buffer.
  change (drop (Z.to_nat 2) (_ :: _ :: bytes)) with bytes.
  subst bytes. rewrite decode_encode by done. reflexivity.
Qed.

Lemma service_round_trip_witness :
  Health.parseProtobufResponse 1 (Health.requestSerialize (Some (JS.lit "OK"))) =
    Some (<["field_1" := VStr (JS.lit "OK")]> ∅, []).
Proof.
  destruct (service_round_trip (JS.lit "OK") 1) as (_ & _ & _ & Htrip).
  destruct Htrip as [Hparse Hsame];
    [repeat constructor; lia | discriminate | simpl; lia | lia |].
  rewrite Hparse, Hsame; reflexivity.
Defined.

(** C1, as stated, fails.  A string that is one unpaired surrogate comes
    back as U+FFFD.  A name of 128 letters comes back one letter short,
    and a name of 256 asterisks comes back as the empty string together
    with an [error_message] made of its own bytes. *)
Lemma service_round_trip_fails :
  Health.parseProtobufResponse 1 (Health.requestSerialize (Some [0xD800])) =
    Some (<["field_1" := VStr [0xFFFD]]> ∅, [])
  ∧ Health.parseProtobufResponse 1 (Health.requestSerialize (Some (replicate 128 0x61))) =
      Some (<["field_1" := VStr (replicate 127 0x61)]> ∅, [])
  ∧ Health.parseProtobufResponse 7 (Health.requestSerialize (Some (replicate 256 0x2a))) =
      Some (<["error_message" := VStr (replicate 34 0x2a)]>
              (<["field_5" := VStr (replicate 34 0x2a)]> (<["field_1" := VStr []]> ∅)),
            []).
Proof. split_and!; reflexivity. Qed.

(** ** The metadata transform *)

Section auth.
Import Auth.

(** The model of the hash agrees with the standard's test vector for
    "abc" and with the runtime on a keyed example. *)
Example sha256_abc :
  Crypto.hex (Crypto.sha256 (JS.lit "abc")) =
    JS.lit "ba7816bf8f01cfea414140de5dae2223b00361a396177a9cb410ff61f20015ad".
Proof. vm_compute. reflexivity. Qed.

Example hmac_sha256_fox :
  Crypto.hmac_sha256_hex (JS.lit "key")
    (JS.lit "The quick brown fox jumps over the lazy dog") =
    JS.lit "f7bc83f430538424b13298e6aa6fb143ef4d59a14946175997479dbc2d1a3cd8".
Proof. vm_compute. reflexivity. Qed.

Lemma digest_length (s : Crypto.hstate) : length (Crypto.digest s) = 32%nat.
Proof. reflexivity. Qed.

Lemma hex_length (bytes : list Z) : length (Crypto.hex bytes) = (2 * length bytes)%nat.
Proof.
  unfold Crypto.hex. induction bytes as [|b bytes IH]; [done|].
  rewrite bind_cons. simpl in *. lia.
Qed.

Lemma hex_digit_is_hex (x : Z) : is_hex (Crypto.hex_digit (x mod 16)).
Proof.
  pose proof (Z.mod_pos_bound x 16 ltac:(lia)).
  unfold Crypto.hex_digit, is_hex. case_decide; lia.
Qed.

Lemma hex_is_hex (bytes : list Z) : Forall is_hex (Crypto.hex bytes).
Proof.
  unfold Crypto.hex. induction bytes as [|b bytes IH]; [constructor|].
  rewrite bind_cons. simpl.
  constructor; [apply hex_digit_is_hex|]. constructor; [apply hex_digit_is_hex|]. exact IH.
Qed.

Lemma signature_shape (key message : list Z) :
  length (Crypto.hmac_sha256_hex key message) = 64%nat
  ∧ Forall is_hex (Crypto.hmac_sha256_hex key message).
Proof.
  split; [|apply hex_is_hex].
  unfold Crypto.hmac_sha256_hex, Crypto.hmac_sha256, Crypto.sha256.
  by rewrite hex_length, digest_length.
Qed.

(** The window: for a clock that is not before the epoch, the rounded
    time is the start of the 30-second step that contains it. *)
Lemma rounded_window (now : Z) : 0 <= now → rounded now = 30 * (now / 30000).
Proof.
  intros Hnow. unfold rounded.
  assert (0 <= now / 1000) by (apply Z.div_pos; lia).
  rewrite Z.rem_mod_nonneg by lia.
  replace 30000 with (1000 * 30) by lia. rewrite <- Z.div_div by lia.
  pose proof (Z.div_mod (now / 1000) 30 ltac:(lia)). lia.
Qed.

(** [find] returns the first entry that satisfies the test. *)
Lemma find_first {A} (f : A → bool) (l : list A) (x : A) :
  List.find f l = Some x →
  ∃ pre post, l = pre ++ x :: post ∧ Forall (λ y, f y = false) pre ∧ f x = true.
Proof.
  induction l as [|y l IH]; [done|]. simpl.
  destruct (f y) eqn:Hy.
  - intros [= ->]. exists [], l. by repeat constructor.
  - intros (pre & post & -> & Hpre & Hx)%IH.
    exists (y :: pre), post. by repeat constructor.
Qed.

Lemma find_some_of_elem {A} (f : A → bool) (l : list A) (x : A) :
  x ∈ l → f x = true → is_Some (List.find f l).
Proof.
  induction 1 as [x l|x y l Hin IH]; intros Hx; simpl.
  - by rewrite Hx.
  - destruct (f y); [done|]. by apply IH.
Qed.

Lemma filter_bool {A} (f : A → bool) (P : A → Prop) `{∀ x, Decision (P x)} (l : list A) :
  (∀ x, f x = true ↔ P x) → List.filter f l = filter P l.
Proof.
  intros Hf. induction l as [|x l IH]; [done|]. simpl.
  rewrite filter_cons. destruct (f x) eqn:Hx.
  - rewrite decide_True by (by apply Hf). by rewrite IH.
  - rewrite decide_False; [done|]. rewrite <- Hf. by rewrite Hx.
Qed.

End auth.

(** C8.  When some entry's key lower-cases to "client-key", the
    transform returns the entries whose key lower-cases neither to
    "client-key" nor to "authorization", in their order, followed by the
    one entry Authorization: "TOTP " + signature.  The signature is the
    hex HMAC-SHA256, 64 lower-case hexadecimal digits long, of the
    decimal string of the rounded time, keyed by the string value of the
    first entry whose key lower-cases to "client-key"; for a clock not
    before the epoch the rounded time is the start, in seconds, of the
    30-second step that contains it. *)
Theorem client_key_authorization
    (toLowerCase : list Z → list Z) (String_ : jsval → list Z)
    (now : Z) (entries : list Auth.MetadataItem) :
  (∃ entry, entry ∈ entries ∧ toLowerCase (Auth.key entry) = JS.lit "client-key") →
  ∃ pre clientEntry post signature,
    entries = pre ++ clientEntry :: post
    ∧ Forall (λ entry, toLowerCase (Auth.key entry) ≠ JS.lit "client-key") pre
    ∧ toLowerCase (Auth.key clientEntry) = JS.lit "client-key"
    ∧ signature =
        Crypto.hmac_sha256_hex (String_ (Auth.value clientEntry))
          (Auth.Number_toString (Auth.rounded now))
    ∧ length signature = 64%nat
    ∧ Forall Auth.is_hex signature
    ∧ (0 <= now → Auth.rounded now = 30 * (now / 30000))
    ∧ Auth.applyClientKeyAuthorization toLowerCase String_ now entries =
        filter (λ entry, toLowerCase (Auth.key entry) ≠ JS.lit "client-key"
                         ∧ toLowerCase (Auth.key entry) ≠ JS.lit "authorization")
               entries
        ++ [ {| Auth.key := JS.lit "Authorization";
                Auth.value := VStr (JS.lit "TOTP " ++ signature) |} ].
Proof.
  intros (entry & Hin & Hkey).
  destruct (find_some_of_elem
              (λ e, bool_decide (toLowerCase (Auth.key e) = JS.lit "client-key"))
              entries entry Hin) as [clientEntry Hfind].
  { by rewrite bool_decide_eq_true. }
  destruct (find_first _ _ _ Hfind) as (pre & post & Hsplit & Hpre & Hclient).
  rewrite bool_decide_eq_true in Hclient.
  exists pre, clientEntry, post. eexists.
  split_and!; [exact Hsplit | | exact Hclient | reflexivity
              | apply signature_shape | apply signature_shape
              | apply rounded_window | ].
  - eapply Forall_impl; [exact Hpre|]. intros e. simpl.
    by rewrite bool_decide_eq_false.
  - unfold Auth.applyClientKeyAuthorization. rewrite Hfind. f_equal.
    apply filter_bool. intros e.
    rewrite andb_true_iff, !negb_true_iff, !bool_decide_eq_false. done.
Qed.


Lemma client_key_authorization_witness :
  let entries :=
    [ {| Auth.key := JS.lit "Client-Key"; Auth.value := VStr (JS.lit "s3cr3t") |};
      {| Auth.key := JS.lit "Authorization"; Auth.value := VStr (JS.lit "Bearer old") |} ] in
  ∃ signature,
    length signature = 64%nat
    ∧ Auth.applyClientKeyAuthorization Auth.ascii_toLowerCase Auth.String_of
        1700000012345 entries =
      filter (λ entry, Auth.ascii_toLowerCase (Auth.key entry) ≠ JS.lit "client-key"
                       ∧ Auth.ascii_toLowerCase (Auth.key entry) ≠ JS.lit "authorization")
             entries
      ++ [ {| Auth.key := JS.lit "Authorization";
              Auth.value := VStr (JS.lit "TOTP " ++ signature) |} ].
Proof.
  intros entries.
  destruct (client_key_authorization Auth.ascii_toLowerCase Auth.String_of
              1700000012345 entries)
    as (pre & clientEntry & post & signature & _ & _ & _ & _ & Hlen & _ & _ & Happly).
  - eexists. split; [apply list_elem_of_here | reflexivity].
  - exists signature. split; [exact Hlen | exact Happly].
Defined.

(** The spec's example, at a clock of 1700000012345 ms: both entries go,
    and the one entry left carries the signature of "1700000010" under
    the key "s3cr3t". *)
Example spec_example_s3cr3t :
  Auth.applyClientKeyAuthorization Auth.ascii_toLowerCase Auth.String_of 1700000012345
    [ {| Auth.key := JS.lit "client-key"; Auth.value := VStr (JS.lit "s3cr3t") |};
      {| Auth.key := JS.lit "Authorization"; Auth.value := VStr (JS.lit "Bearer old") |} ] =
    [ {| Auth.key := JS.lit "Authorization";
         Auth.value :=
           VStr (JS.lit
             "TOTP f06bb2205876d0c6fa3896a1a690d471bcddedc6b9b4ed0e56637fef22169283") |} ].
Proof. vm_compute. reflexivity. Qed.

(** ** The decoder on further buffers *)

Section runs.
Import Health.

Lemma and_0x7f_range (b : Z) : 0 <= JS.and b 0x7f < 128.
Proof.
  unfold JS.and. change (JS.ToInt32 127) with (Z.ones 7).
  rewrite Z.land_ones by lia.
  pose proof (Z.mod_pos_bound (JS.ToInt32 b) (2 ^ 7) ltac:(lia)).
  rewrite ToInt32_small; lia.
Qed.

Lemma get_of_nat (buffer : list Z) (o : nat) :
  Buf.get buffer (Z.of_nat o) = buffer !! o.
Proof. unfold Buf.get. rewrite decide_True by lia. by rewrite Nat2Z.id. Qed.

Lemma short_runs_no_four (buffer : list Z) (i : nat) :
  short_runs buffer = true →
  (∀ j, (j < 4)%nat → ∃ b, buffer !! (i + j)%nat = Some b ∧ continues b = true) →
  False.
Proof.
  unfold short_runs. rewrite forallb_forall. intros Hshort Hrun.
  destruct (Hrun 0%nat ltac:(lia)) as (b0 & Hb0 & _).
  apply lookup_lt_Some in Hb0.
  specialize (Hshort i). rewrite in_seq in Hshort.
  specialize (Hshort ltac:(lia)). apply negb_true_iff in Hshort.
  assert (run_of_four buffer i = true) as Hfour; [|congruence].
  unfold run_of_four. rewrite forallb_forall. intros j Hj%in_seq.
  destruct (Hrun j ltac:(lia)) as (b & -> & Hb). done.
Qed.

(** After [k] continuation bytes in a row, with at most three so far,
    the loop ends on a value below 2^28. *)
Lemma varint_loop_below_28 (buffer : list Z) :
  short_runs buffer = true →
  ∀ (fuel k o : nat) (value : Z) (reads : list Z) v o' rs,
    (k <= 3)%nat → (k <= o)%nat →
    0 <= value < 2 ^ (7 * Z.of_nat k) →
    (∀ j, (j < k)%nat → ∃ b, buffer !! (o - k + j)%nat = Some b ∧ continues b = true) →
    varint_loop fuel buffer (Z.of_nat o) value (7 * Z.of_nat k) reads = Some (v, o', rs) →
    0 <= v < 2 ^ 28.
Proof.
  intros Hshort. induction fuel as [|fuel IH];
    intros k o value reads v o' rs Hk Hko Hvalue Hrun; simpl.
  - case_decide; [done|]. intros [= <- <- <-].
    assert (2 ^ (7 * Z.of_nat k) <= 2 ^ 28) by (apply Z.pow_le_mono_r; lia). lia.
  - assert (2 ^ (7 * Z.of_nat k) <= 2 ^ 21) by (apply Z.pow_le_mono_r; lia).
    assert (0 < 2 ^ (7 * Z.of_nat k)) by (apply Z.pow_pos_nonneg; lia).
    case_decide as Hlt; cycle 1.
    { intros [= <- <- <-]. lia. }
    rewrite get_of_nat.
    destruct (buffer !! o) as [byte|] eqn:Hbyte; cycle 1.
    { intros [= <- <- <-]. lia. }
    pose proof (and_0x7f_range byte) as Hg.
    assert (2 ^ (7 * Z.of_nat (S k)) = 128 * 2 ^ (7 * Z.of_nat k)) as Hpow.
    { replace (7 * Z.of_nat (S k)) with (7 * Z.of_nat k + 7) by lia.
      rewrite Z.pow_add_r by lia. lia. }
    rewrite accumulate_group by nia.
    case_decide as Hbit.
    + intros [= <- <- <-]. nia.
    + assert (continues byte = true) as Hcont.
      { unfold continues. by rewrite bool_decide_false. }
      destruct (decide (k = 3)%nat) as [->|Hk3].
      { exfalso. apply (short_runs_no_four buffer (o - 3) Hshort). intros j Hj.
        destruct (decide (j = 3)%nat) as [->|].
        - exists byte. by replace (o - 3 + 3)%nat with o by lia.
        - apply Hrun. lia. }
      replace (Z.of_nat o + 1) with (Z.of_nat (S o)) by lia.
      replace (7 * Z.of_nat k + 7) with (7 * Z.of_nat (S k)) by lia.
      apply IH; [lia | lia | rewrite Hpow; nia |].
      intros j Hj. destruct (decide (j = k)) as [->|].
      * exists byte. by replace (S o - S k + k)%nat with o by lia.
      * replace (S o - S k + j)%nat with (o - k + j)%nat by lia. apply Hrun. lia.
Qed.

Lemma short_runs_lengths_nonneg (buffer : list Z) :
  short_runs buffer = true → lengths_nonneg buffer.
Proof.
  intros Hshort o tag len p reads Hget _ Hread.
  apply get_Some_bounds in Hget.
  unfold readVarint in Hread.
  replace (o + 1) with (Z.of_nat (Z.to_nat (o + 1))) in Hread by lia.
  apply (varint_loop_below_28 buffer Hshort _ 0 _ 0) in Hread; [lia | lia | lia | simpl; lia |].
  intros j Hj. lia.
Qed.

End runs.

(** X1.  A buffer without four bytes in a row that have the high bit set
    is decoded: the call returns within as many rounds as the buffer has
    bytes. *)
Theorem decode_returns_on_short_runs (buffer : list Z) :
  short_runs buffer = true →
  ∃ response console,
    Health.parseProtobufResponse (length buffer) buffer = Some (response, console).
Proof.
  intros Hshort.
  destruct (parseProtobufResponse_returns buffer (short_runs_lengths_nonneg _ Hshort))
    as [[response console] Hparse].
  by exists response, console.
Qed.

Lemma decode_returns_on_short_runs_witness :
  ∃ response console,
    Health.parseProtobufResponse 6 [0x08; 0x01; 0x12; 0x02; 0x35; 0x6d] =
      Some (response, console).
Proof. apply (decode_returns_on_short_runs [0x08; 0x01; 0x12; 0x02; 0x35; 0x6d]). reflexivity. Defined.

Section shape.
Import Health.

Lemma ToInt32_range (z : Z) : int32 (JS.ToInt32 z).
Proof.
  unfold int32, JS.ToInt32.
  pose proof (Z.mod_pos_bound (z + 2 ^ 31) (2 ^ 32) ltac:(lia)). lia.
Qed.

Lemma varint_loop_int32 (buffer : list Z) :
  ∀ (fuel : nat) (offset value shift : Z) (reads : list Z) v o rs,
    int32 value →
    varint_loop fuel buffer offset value shift reads = Some (v, o, rs) →
    int32 v.
Proof.
  induction fuel as [|fuel IH]; intros offset value shift reads v o rs Hvalue; simpl.
  - case_decide; [done|]. by intros [= <- <- <-].
  - case_decide; [|by intros [= <- <- <-]].
    destruct (Buf.get buffer offset) as [byte|]; [|by intros [= <- <- <-]].
    case_decide.
    + intros [= <- <- <-]. apply ToInt32_range.
    + apply IH, ToInt32_range.
Qed.

Lemma readVarint_int32 (buffer : list Z) (offset v o : Z) (rs : list Z) :
  readVarint buffer offset = Some (v, o, rs) → int32 v.
Proof. apply varint_loop_int32. unfold int32. lia. Qed.

Lemma field_number_range (tag : Z) : 0 <= tag < 256 → 0 <= JS.sar tag 3 < 32.
Proof.
  intros Htag.
  assert (Forall (λ tag, 0 <= JS.sar tag 3 < 32) (seqZ 0 256)) as Hall.
  { apply (bool_decide_unpack _). vm_compute. exact I. }
  rewrite Forall_forall in Hall. apply Hall, elem_of_seqZ. lia.
Qed.

Lemma get_byte (buffer : list Z) (i b : Z) :
  is_bytes buffer → Buf.get buffer i = Some b → 0 <= b < 256.
Proof.
  unfold is_bytes, Buf.get. rewrite Forall_lookup. intros Hbytes.
  case_decide; [|done]. apply Hbytes.
Qed.

Lemma store_varint_shaped (f v : Z) (result : gmap string jsval) :
  0 <= f < 32 → int32 v → well_shaped result → well_shaped (store_varint f v result).
Proof.
  intros Hf Hv Hres. unfold store_varint, well_shaped.
  assert (shape (field_key f) (VNum v)) by (right; right; exists f; eauto 10).
  assert (shape "status" (VNum v)) by (left; eauto).
  case_decide; repeat (apply map_Forall_insert_2; [done|]); done.
Qed.

Lemma store_string_shaped (f : Z) (s : list Z) (result : gmap string jsval) :
  0 <= f < 32 → well_shaped result → well_shaped (store_string f s result).
Proof.
  intros Hrange Hres. unfold store_string, well_shaped.
  assert (shape (field_key f) (VStr s)) by (right; right; exists f; eauto 10).
  assert (∀ k, k ∈ ["latency"; "error_code"; "error_message"] → shape k (VStr s))
    as Hknown by (intros k Hk; right; left; eauto).
  repeat case_decide;
    repeat (apply map_Forall_insert_2; [first [done | apply Hknown; set_solver]|]); done.
Qed.

Lemma parse_field_shaped (buffer : list Z) (st st' : pstate) (tag : Z) :
  0 <= tag < 256 →
  parse_field buffer st tag = Some st' →
  well_shaped (result st) → well_shaped (result st').
Proof.
  intros Htag%field_number_range. unfold parse_field. intros Hfield Hres.
  destruct (readVarint buffer (offset st + 1)) as [[[v o] rs]|] eqn:Hread;
    repeat case_decide; simpl in Hfield; try done;
    injection Hfield as <-; simpl; try done.
  - apply store_varint_shaped; [done| |done]. by eapply readVarint_int32.
  - by apply store_string_shaped.
Qed.

Lemma parse_loop_shaped (buffer : list Z) :
  is_bytes buffer →
  ∀ (fuel : nat) (st st' : pstate),
    parse_loop fuel buffer st = Some st' →
    well_shaped (result st) → well_shaped (result st').
Proof.
  intros Hbytes. induction fuel as [|fuel IH]; intros st st'; simpl.
  - case_decide; [|by intros [= <-]].
    destruct (Buf.get buffer (offset st)); [done|by intros [= <-]].
  - case_decide; [|by intros [= <-]].
    destruct (Buf.get buffer (offset st)) as [tag|] eqn:Hget; [|by intros [= <-]].
    destruct (parse_field buffer st tag) as [st1|] eqn:Hfield; [|done]. simpl.
    intros Hloop Hres. eapply IH; [exact Hloop|].
    eapply parse_field_shaped; [|exact Hfield|exact Hres].
    by eapply get_byte.
Qed.

Lemma shaped_status (result : gmap string jsval) (v : jsval) :
  well_shaped result → result !! "status" = Some v → ∃ n, v = VNum n ∧ int32 n.
Proof.
  intros Hres Hv. destruct (Hres _ _ Hv) as [[_ Hn] | [[Hin _] | (f & _ & Hk & _)]].
  - exact Hn.
  - exfalso. repeat (apply elem_of_cons in Hin as [Heq | Hin]; [discriminate Heq|]).
    by apply elem_of_nil in Hin.
  - exfalso. apply (field_key_not_known f). rewrite <- Hk. set_solver.
Qed.

(** The console: nothing is written while the loop goes on, and one
    line at most when it ends. *)
Lemma parse_field_console (buffer : list Z) (st st' : pstate) (tag : Z) :
  parse_field buffer st tag = Some st' →
  console st' = console st
  ∨ (Z.of_nat (length buffer) <= offset st' ∧ ∃ line, console st' = console st ++ [line]).
Proof.
  unfold parse_field. intros Hfield.
  destruct (readVarint buffer (offset st + 1)) as [[[v o] rs]|];
    repeat case_decide; simpl in Hfield; try done;
    injection Hfield as <-; simpl;
    first [by left | right; split; [lia | by eexists]].
Qed.

Lemma parse_loop_console (buffer : list Z) :
  ∀ (fuel : nat) (st st' : pstate),
    parse_loop fuel buffer st = Some st' →
    console st' = console st ∨ ∃ line, console st' = console st ++ [line].
Proof.
  induction fuel as [|fuel IH]; intros st st'; simpl.
  - case_decide; [|intros [= <-]; by left].
    destruct (Buf.get buffer (offset st)); [done|intros [= <-]; by left].
  - case_decide; [|intros [= <-]; by left].
    destruct (Buf.get buffer (offset st)) as [tag|]; [|intros [= <-]; by left].
    destruct (parse_field buffer st tag) as [st1|] eqn:Hfield; [|done]. simpl.
    intros Hloop.
    destruct (parse_field_console _ _ _ _ Hfield) as [Hsame | [Hend [line Hline]]].
    + rewrite <- Hsame. by apply IH.
    + rewrite parse_loop_exit in Hloop by done. injection Hloop as <-. eauto.
Qed.

(** Properties once written stay: a round only adds or overwrites. *)
Lemma parse_field_dom (buffer : list Z) (st st' : pstate) (tag : Z) :
  parse_field buffer st tag = Some st' → dom (result st) ⊆ dom (result st').
Proof.
  unfold parse_field, store_varint, store_string. intros Hfield.
  destruct (readVarint buffer (offset st + 1)) as [[[v o] rs]|];
    repeat case_decide; simpl in Hfield; try done;
    injection Hfield as <-; simpl; rewrite ?dom_insert_L; set_solver.
Qed.

Lemma parse_loop_dom (buffer : list Z) :
  ∀ (fuel : nat) (st st' : pstate),
    parse_loop fuel buffer st = Some st' → dom (result st) ⊆ dom (result st').
Proof.
  induction fuel as [|fuel IH]; intros st st'; simpl.
  - case_decide; [|by intros [= <-]].
    destruct (Buf.get buffer (offset st)); [done|by intros [= <-]].
  - case_decide; [|by intros [= <-]].
    destruct (Buf.get buffer (offset st)) as [tag|]; [|by intros [= <-]].
    destruct (parse_field buffer st tag) as [st1|] eqn:Hfield; [|done]. simpl.
    intros Hloop. etrans; [by eapply parse_field_dom|by apply IH].
Qed.

End shape.

(** X2.  On a buffer of bytes, whatever the decoder returns has only
    properties of the expected shape: [status] is a 32-bit integer,
    [latency], [error_code] and [error_message] are strings, and every
    other property is [field_N] with [N] from 0 to 31, a 32-bit integer or
    a string.  No property holds raw bytes, and at most one line has been
    written to the console. *)
Theorem decoded_object_shape
    (fuel : nat) (buffer : list Z) (response : gmap string jsval) (console : list string) :
  is_bytes buffer →
  Health.parseProtobufResponse fuel buffer = Some (response, console) →
  well_shaped response ∧ (length console <= 1)%nat.
Proof.
  intros Hbytes. unfold Health.parseProtobufResponse.
  destruct (Health.parse_loop fuel buffer Health.initial) as [st|] eqn:Hloop; [|done].
  simpl. intros [= <- <-]. split.
  - eapply parse_loop_shaped; [done|exact Hloop|]. apply map_Forall_empty.
  - destruct (parse_loop_console _ _ _ _ Hloop) as [-> | [line ->]]; simpl; lia.
Qed.

(** X3.  The status that the health check reads off a decoded response
    is [undefined] or a 32-bit integer, never a string; so the response
    counts as serving, and is labelled "SERVING", exactly when its
    [status] is the number 1. *)
Theorem decoded_status_classification
    (fuel : nat) (buffer : list Z) (response : gmap string jsval) (console : list string) :
  is_bytes buffer →
  Health.parseProtobufResponse fuel buffer = Some (response, console) →
  (Status.rawStatus response = VUndefined
   ∨ ∃ n, int32 n ∧ Status.rawStatus response = VNum n)
  ∧ (Status.isServing (Status.rawStatus response) = true
     ↔ response !! "status" = Some (VNum 1))
  ∧ (Status.statusToString (Status.rawStatus response) = "SERVING"
     ↔ response !! "status" = Some (VNum 1)).
Proof.
  intros Hbytes Hparse.
  assert (well_shaped response) as Hshape.
  { unfold Health.parseProtobufResponse in Hparse.
    destruct (Health.parse_loop fuel buffer Health.initial) as [st|] eqn:Hloop; [|done].
    simpl in Hparse. injection Hparse as <- <-.
    eapply parse_loop_shaped; [done|exact Hloop|]. apply map_Forall_empty. }
  unfold Status.rawStatus.
  destruct (response !! "status") as [v|] eqn:Hstatus; simpl.
  - destruct (shaped_status _ _ Hshape Hstatus) as (n & -> & Hn).
    split_and!; [right; eauto | |].
    + unfold Status.isServing. rewrite bool_decide_eq_true.
      split; [intros [Heq | Heq]; [discriminate Heq | by injection Heq as ->]|].
      intros ?. simplify_eq. by right.
    + unfold Status.statusToString.
      repeat case_decide; split; try done; intros ?; simplify_eq; naive_solver.
  - split_and!; [by left | |]; split; done.
Qed.

Lemma decoded_object_shape_witness :
  ∃ response console,
    Health.parseProtobufResponse 3 [0x08; 0x01; 0x12; 0x02; 0x35; 0x6d; 0x1d] =
      Some (response, console)
    ∧ well_shaped response ∧ (length console <= 1)%nat.
Proof.
  eexists _, _. split; [reflexivity|].
  apply (decoded_object_shape 3 [0x08; 0x01; 0x12; 0x02; 0x35; 0x6d; 0x1d]);
    [|reflexivity].
  repeat constructor; lia.
Defined.

Lemma decoded_status_classification_witness :
  ∃ response console,
    Health.parseProtobufResponse 2 [0x08; 0x02; 0x08; 0x01] = Some (response, console)
    ∧ (Status.rawStatus response = VUndefined
       ∨ ∃ n, int32 n ∧ Status.rawStatus response = VNum n)
    ∧ (Status.isServing (Status.rawStatus response) = true
       ↔ response !! "status" = Some (VNum 1))
    ∧ (Status.statusToString (Status.rawStatus response) = "SERVING"
       ↔ response !! "status" = Some (VNum 1)).
Proof.
  eexists _, _. split; [reflexivity|].
  apply (decoded_status_classification 2 [0x08; 0x02; 0x08; 0x01] _ []);
    [|reflexivity].
  repeat constructor; lia.
Defined.

(** ** Varints and whole messages *)

Section groups.
Import Health.

Lemma groups_value_nonneg (groups : list Z) (last : Z) :
  Forall (λ g, 0 <= g < 128) groups → 0 <= last → 0 <= groups_value groups last.
Proof. induction 1; simpl; intros; [done|]. specialize (IHForall ltac:(done)). lia. Qed.

Lemma varint_loop_on_groups :
  ∀ (groups : list Z) (last : Z) (pre rest : list Z) (fuel : nat)
    (value shift : Z) (reads : list Z),
    Forall (λ g, 0 <= g < 128) groups → 0 <= last < 128 →
    0 <= shift → shift + 7 * Z.of_nat (length groups) <= 28 →
    0 <= value < 2 ^ shift →
    value + groups_value groups last * 2 ^ shift < 2 ^ 31 →
    (length groups < fuel)%nat →
    ∃ reads',
      varint_loop fuel (pre ++ groups_bytes groups last ++ rest)
        (Z.of_nat (length pre)) value shift reads =
      Some (value + groups_value groups last * 2 ^ shift,
            Z.of_nat (length pre + length groups + 1), reads').
Proof.
  induction groups as [|g groups IH];
    intros last pre rest fuel value shift reads Hgroups Hlast Hshift Hmax Hvalue Hsum Hfuel;
    (destruct fuel as [|fuel]; [simpl in Hfuel; lia|]);
    assert (0 < 2 ^ shift) by (apply Z.pow_pos_nonneg; lia).
  - unfold groups_bytes. cbn [fmap list_fmap app varint_loop groups_value foldr] in *.
    rewrite decide_True by (rewrite length_app; simpl; lia).
    rewrite get_app_middle.
    destruct (byte_masks last ltac:(lia)) as [Hmask Hbit].
    rewrite decide_True by (apply Hbit; lia).
    rewrite Hmask, (Z.mod_small last) by lia.
    simpl in Hmax. rewrite accumulate_group by lia.
    eexists. do 3 f_equal. simpl. lia.
  - apply Forall_cons in Hgroups as [Hg Hgroups].
    pose proof (groups_value_nonneg groups last Hgroups ltac:(lia)) as Hrest.
    unfold groups_bytes in *.
    cbn [fmap list_fmap app varint_loop groups_value foldr length] in *.
    fold (groups_value groups last) in *.
    assert (2 ^ (shift + 7) = 128 * 2 ^ shift) as Hpow.
    { rewrite Z.pow_add_r by lia. lia. }
    rewrite decide_True by (rewrite length_app; simpl; lia).
    rewrite get_app_middle.
    destruct (byte_masks (128 + g) ltac:(lia)) as [Hmask Hbit].
    rewrite decide_False by (rewrite Hbit; lia).
    rewrite Hmask.
    replace ((128 + g) mod 128) with g by (Z.div_mod_to_equations; lia).
    rewrite accumulate_group by nia.
    destruct (IH last (pre ++ [128 + g]) rest fuel (value + g * 2 ^ shift) (shift + 7)
                (reads ++ [Z.of_nat (length pre)])) as [reads' Hrun];
      [done | done | lia | lia | rewrite Hpow; nia | rewrite Hpow; nia | simpl in Hfuel; lia |].
    exists reads'. rewrite <- app_assoc in Hrun. simpl in Hrun.
    rewrite length_app in Hrun. simpl in Hrun.
    replace (Z.of_nat (length pre) + 1) with (Z.of_nat (length pre + 1)) by lia.
    rewrite Hrun. do 3 f_equal; [rewrite Hpow; nia | lia].
Qed.

(** More fuel does not change a result. *)
Lemma parse_loop_more_fuel (buffer : list Z) :
  ∀ (fuel fuel' : nat) (st final : pstate),
    parse_loop fuel buffer st = Some final → (fuel <= fuel')%nat →
    parse_loop fuel' buffer st = Some final.
Proof.
  induction fuel as [|fuel IH]; intros fuel' st final; simpl.
  - case_decide as Hlt.
    + destruct (Buf.get buffer (offset st)) eqn:Hget; [done|].
      intros [= <-] _. destruct fuel'; simpl; rewrite decide_True by done; by rewrite Hget.
    + intros [= <-] _. by apply parse_loop_exit; lia.
  - case_decide as Hlt.
    + destruct (Buf.get buffer (offset st)) as [tag|] eqn:Hget.
      * destruct fuel' as [|fuel']; [lia|]. simpl.
        rewrite decide_True by done. rewrite Hget.
        destruct (parse_field buffer st tag); [|done]. simpl.
        intros Hloop Hle. eapply IH; [exact Hloop|lia].
      * intros [= <-] _. destruct fuel'; simpl; rewrite decide_True by done; by rewrite Hget.
    + intros [= <-] _. by apply parse_loop_exit; lia.
Qed.

End groups.

(** A varint of at most five bytes, read where it stands. *)
Lemma readVarint_on_groups
    (groups : list Z) (last : Z) (pre rest : list Z) :
  Forall (λ g, 0 <= g < 128) groups → 0 <= last < 128 →
  (length groups <= 4)%nat →
  groups_value groups last < 2 ^ 31 →
  ∃ reads,
    Health.readVarint (pre ++ groups_bytes groups last ++ rest) (Z.of_nat (length pre)) =
      Some (groups_value groups last,
            Z.of_nat (length pre + length groups + 1), reads).
Proof.
  intros Hgroups Hlast Hlen Hvalue. unfold Health.readVarint.
  destruct (varint_loop_on_groups groups last pre rest
              (S (length (pre ++ groups_bytes groups last ++ rest))) 0 0 [])
    as [reads Hrun];
    [done | done | lia | lia | change (2 ^ 0) with 1; lia
    | change (2 ^ 0) with 1; lia | | ].
  - unfold groups_bytes. rewrite !length_app, length_fmap. simpl. lia.
  - exists reads. rewrite Hrun. do 3 f_equal. change (2 ^ 0) with 1. lia.
Qed.

(** X4.  A varint of at most five bytes whose value is below 2^31 is
    decoded to that value, wherever it stands in the buffer, and the
    offset moves past its last byte. *)
Theorem varint_decodes_groups
    (groups : list Z) (last : Z) (pre rest : list Z) :
  Forall (λ g, 0 <= g < 128) groups → 0 <= last < 128 →
  (length groups <= 4)%nat →
  groups_value groups last < 2 ^ 31 →
  ∃ reads,
    Health.readVarint (pre ++ groups_bytes groups last ++ rest) (Z.of_nat (length pre)) =
      Some (groups_value groups last,
            Z.of_nat (length pre + length groups + 1), reads).
Proof. apply readVarint_on_groups. Qed.

Lemma varint_decodes_groups_witness :
  ∃ reads, Health.readVarint [0x08; 0xAC; 0x02; 0x10] 1 = Some (300, 3, reads).
Proof.
  apply (varint_decodes_groups [44] 2 [0x08] [0x10]);
    [repeat constructor; lia | lia | simpl; lia | simpl; lia].
Defined.

(** X5.  What the rounds so far have recorded is still in the result:
    the properties of the object after [n] rounds are properties of the
    returned object, and the console lines so far come first. *)
Theorem decode_keeps_properties
    (buffer : list Z) (n fuel : nat) (st : Health.pstate)
    (response : gmap string jsval) (console : list string) :
  Health.rounds n buffer Health.initial = Some st →
  Health.parseProtobufResponse fuel buffer = Some (response, console) →
  dom (Health.result st) ⊆ dom response
  ∧ Health.console st `prefix_of` console.
Proof.
  intros Hn. unfold Health.parseProtobufResponse.
  destruct (Health.parse_loop fuel buffer Health.initial) as [final|] eqn:Hloop; [|done].
  simpl. intros [= <- <-].
  apply (parse_loop_more_fuel _ _ (n + fuel)) in Hloop; [|lia].
  rewrite (parse_loop_rounds _ _ _ _ _ Hn) in Hloop.
  split; [by eapply parse_loop_dom|].
  destruct (parse_loop_console _ _ _ _ Hloop) as [-> | [line ->]];
    [done | by apply prefix_app_r].
Qed.

Lemma decode_keeps_properties_witness :
  ∃ st response console,
    Health.rounds 1 [0x08; 0x01; 0x12; 0x02; 0x35; 0x6d; 0x1d] Health.initial = Some st
    ∧ Health.parseProtobufResponse 3 [0x08; 0x01; 0x12; 0x02; 0x35; 0x6d; 0x1d] =
        Some (response, console)
    ∧ dom (Health.result st) ⊆ dom response
    ∧ Health.console st `prefix_of` console.
Proof.
  eexists _, _, _. split; [reflexivity|]. split; [reflexivity|].
  apply (decode_keeps_properties [0x08; 0x01; 0x12; 0x02; 0x35; 0x6d; 0x1d] 1 3);
    reflexivity.
Defined.

Section message.
Import Health.

Lemma tag_parts (tag : Z) :
  0 <= tag < 256 → JS.and tag 0x07 = tag mod 8 ∧ JS.sar tag 3 = tag / 8.
Proof.
  intros Htag.
  assert (Forall (λ tag, JS.and tag 0x07 = tag mod 8 ∧ JS.sar tag 3 = tag / 8)
            (seqZ 0 256)) as Hall.
  { apply (bool_decide_unpack _). vm_compute. exact I. }
  rewrite Forall_forall in Hall. apply Hall, elem_of_seqZ. lia.
Qed.

Lemma tag_of_field (f w : Z) :
  0 <= f < 32 → 0 <= w < 8 → JS.and (8 * f + w) 0x07 = w ∧ JS.sar (8 * f + w) 3 = f.
Proof.
  intros Hf Hw. destruct (tag_parts (8 * f + w) ltac:(lia)) as [-> ->].
  split; Z.div_mod_to_equations; lia.
Qed.

Lemma groups_bytes_length (groups : list Z) (last : Z) :
  length (groups_bytes groups last) = S (length groups).
Proof. unfold groups_bytes. rewrite length_app, length_fmap. simpl. lia. Qed.

(** [subarray] on a stretch that lies inside the buffer. *)
Lemma subarray_middle (pre payload rest : list Z) :
  Buf.subarray (pre ++ payload ++ rest) (Z.of_nat (length pre))
    (Z.of_nat (length pre) + Z.of_nat (length payload)) = payload.
Proof.
  unfold Buf.subarray, Buf.adjustOffset. rewrite !length_app.
  rewrite !decide_False by lia.
  rewrite !Z.min_l by lia.
  replace (Z.to_nat (Z.of_nat (length pre) + Z.of_nat (length payload) - Z.of_nat (length pre)))
    with (length payload) by lia.
  rewrite Nat2Z.id, drop_app_length. by rewrite take_app_length.
Qed.

(** One round on a valid field, wherever it stands. *)
Lemma round_on_field (fld : field) (pre rest : list Z)
    (result : gmap string jsval) (console : list string) :
  field_valid fld →
  round (pre ++ field_bytes fld ++ rest) (PState (Z.of_nat (length pre)) result console) =
    Some (PState (Z.of_nat (length pre + length (field_bytes fld)))
                 (record_field result fld) console).
Proof.
  intros Hvalid. unfold round. cbn [offset].
  rewrite decide_True by (destruct fld; rewrite length_app; simpl; lia).
  destruct fld as [f groups last|f groups last payload]; cbn [field_bytes app].
  - destruct Hvalid as (Hf & Hgroups & Hlast & Hlen & Hvalue).
    rewrite get_app_middle. cbn [mbind option_bind].
    unfold parse_field. cbn [offset Health.result Health.console].
    destruct (tag_of_field f 0 Hf ltac:(lia)) as [Hwire Hnumber].
    rewrite Z.add_0_r in Hwire, Hnumber. rewrite Hwire, Hnumber.
    rewrite decide_True by done.
    destruct (readVarint_on_groups groups last (pre ++ [8 * f]) rest)
      as [reads Hread]; [done..|].
    rewrite length_app in Hread. simpl in Hread.
    rewrite <- app_assoc in Hread. simpl in Hread.
    replace (Z.of_nat (length pre) + 1) with (Z.of_nat (length pre + 1)) by lia.
    rewrite Hread. simpl. do 2 f_equal.
    rewrite groups_bytes_length. lia.
  - destruct Hvalid as (Hf & (Hgroups & Hlast & Hlen & Hvalue) & Hpayload).
    rewrite get_app_middle. cbn [mbind option_bind].
    unfold parse_field. cbn [offset Health.result Health.console].
    destruct (tag_of_field f 2 Hf ltac:(lia)) as [Hwire Hnumber].
    rewrite Hwire, Hnumber.
    rewrite decide_False by done. rewrite decide_True by done.
    destruct (readVarint_on_groups groups last (pre ++ [8 * f + 2]) (payload ++ rest))
      as [reads Hread]; [done..|].
    rewrite length_app in Hread. simpl in Hread.
    rewrite <- !app_assoc in Hread. simpl in Hread.
    replace (Z.of_nat (length pre) + 1) with (Z.of_nat (length pre + 1)) by lia.
    rewrite <- app_assoc. rewrite Hread. cbn [mbind option_bind].
    unfold toString_utf8. rewrite Hpayload.
    pose proof (subarray_middle (pre ++ 8 * f + 2 :: groups_bytes groups last) payload rest)
      as Hdata.
    rewrite <- !app_assoc in Hdata. simpl in Hdata.
    rewrite length_app in Hdata. simpl in Hdata.
    unfold groups_bytes in Hdata at 2 3. rewrite length_app, length_fmap in Hdata.
    simpl in Hdata.
    replace (Z.of_nat (length pre + S (length groups + 1)))
      with (Z.of_nat (length pre + 1 + length groups + 1)) in Hdata by lia.
    rewrite Hdata. do 2 f_equal.
    cbn [length]. rewrite length_app, groups_bytes_length. lia.
Qed.

Lemma rounds_on_fields :
  ∀ (fields : list field) (pre rest : list Z)
    (result : gmap string jsval) (console : list string),
    Forall field_valid fields →
    rounds (length fields) (pre ++ message_bytes fields ++ rest)
      (PState (Z.of_nat (length pre)) result console) =
    Some (PState (Z.of_nat (length pre + length (message_bytes fields)))
                 (foldl record_field result fields) console).
Proof.
  unfold message_bytes.
  induction fields as [|fld fields IH]; intros pre rest result console Hvalid.
  - simpl. do 3 f_equal. lia.
  - apply Forall_cons in Hvalid as [Hfld Hvalid].
    rewrite bind_cons. cbn [length rounds foldl].
    rewrite <- app_assoc. rewrite round_on_field by done. cbn [mbind option_bind].
    specialize (IH (pre ++ field_bytes fld) rest (record_field result fld) console Hvalid).
    rewrite length_app in IH. rewrite <- app_assoc in IH. rewrite IH.
    do 3 f_equal. rewrite length_app. lia.
Qed.

End message.

(** X6.  A message made of valid fields is decoded field by field: the
    call returns the object in which every field has been recorded in
    order, later fields overwriting earlier ones of the same number, and
    writes nothing to the console. *)
Theorem decode_message (fields : list field) (fuel : nat) :
  Forall field_valid fields → (length fields <= fuel)%nat →
  Health.parseProtobufResponse fuel (message_bytes fields) =
    Some (foldl record_field ∅ fields, []).
Proof.
  intros Hvalid Hfuel.
  pose proof (rounds_on_fields fields [] [] ∅ [] Hvalid) as Hrounds.
  rewrite app_nil_r in Hrounds. simpl in Hrounds.
  unfold Health.parseProtobufResponse, Health.initial.
  replace fuel with (length fields + (fuel - length fields))%nat by lia.
  rewrite (parse_loop_rounds _ _ _ _ _ Hrounds).
  rewrite parse_loop_exit by (simpl; lia). done.
Qed.

Lemma decode_message_witness :
  Health.parseProtobufResponse 3
    [0x08; 0x02; 0x12; 0x03; 0x35; 0x6d; 0x73; 0x08; 0x01] =
    Some (<["status" := VNum 1]>
            (<["field_1" := VNum 1]>
               (<["latency" := VStr (JS.lit "5ms")]>
                  (<["field_2" := VStr (JS.lit "5ms")]>
                     (<["status" := VNum 2]> (<["field_1" := VNum 2]> ∅))))), []).
Proof.
  apply (decode_message
           [Varint 1 [] 2; Delimited 2 [] 3 [0x35; 0x6d; 0x73]; Varint 1 [] 1] 3);
    [|simpl; lia].
  repeat constructor; simpl; lia.
Defined.

(** ** The request deserializer and the authorization transform *)

Section deserialize.
Import Utf8.

Lemma decode_ascii (c : Z) (rest : list Z) :
  0 <= c < 0x80 → decode (c :: rest) = c :: decode rest.
Proof.
  intros Hc. pose proof (decode_cons c rest ltac:(lia) ltac:(lia)) as Hdec.
  unfold encode_cp in Hdec. rewrite decide_True in Hdec by lia.
  rewrite units_of_scalar in Hdec by lia. exact Hdec.
Qed.

End deserialize.

(** X7.  The request deserializer does not undo the request serializer:
    it decodes the whole buffer as text, so a non-empty name of at most
    127 bytes comes back with two code units in front, the tag 0x0a and
    the length.  Only the empty name comes back as it was. *)
Theorem requestDeserialize_keeps_framing (s : list Z) :
  Health.requestDeserialize (Health.requestSerialize (Some [])) = []
  ∧ (Utf8.code_units s → s ≠ [] → (length (Utf8.encode s) <= 127)%nat →
     Health.requestDeserialize (Health.requestSerialize (Some s)) =
       0x0a :: Z.of_nat (length (Utf8.encode s)) :: Utf8.toWellFormed s).
Proof.
  split; [reflexivity|]. intros Hunits Hs Hlen.
  rewrite requestSerialize_short by done. unfold Health.requestDeserialize.
  rewrite !decode_ascii by lia. by rewrite decode_encode.
Qed.

Lemma requestDeserialize_keeps_framing_witness :
  Health.requestDeserialize (Health.requestSerialize (Some (JS.lit "OK"))) =
    [0x0a; 0x02; 0x4f; 0x4b].
Proof.
  apply (requestDeserialize_keeps_framing (JS.lit "OK"));
    [repeat constructor; lia | discriminate | simpl; lia].
Defined.

Section auth_more.
Import Auth.
Variable toLowerCase : list Z → list Z.
Variable String_ : jsval → list Z.

#[local] Abbreviation apply_ := (applyClientKeyAuthorization toLowerCase String_).
#[local] Abbreviation is_client e := (toLowerCase (key e) = JS.lit "client-key").

Lemma find_none_iff {A} (f : A → bool) (l : list A) :
  List.find f l = None ↔ Forall (λ x, f x = false) l.
Proof.
  induction l as [|x l IH]; simpl; [by split; [constructor|]|].
  destruct (f x) eqn:Hx.
  - split; [done|]. intros [Hx' _]%Forall_cons. congruence.
  - rewrite IH. split; [by constructor|]. by intros [_ ?]%Forall_cons.
Qed.

Lemma apply_absent (now : Z) (entries : list MetadataItem) :
  Forall (λ e, ¬ is_client e) entries → apply_ now entries = entries.
Proof.
  intros Hnone. unfold applyClientKeyAuthorization.
  replace (List.find _ entries) with (@None MetadataItem); [done|].
  symmetry. apply find_none_iff. eapply Forall_impl; [exact Hnone|].
  intros e He. by apply bool_decide_eq_false.
Qed.

Lemma apply_present (now : Z) (entries : list MetadataItem) :
  ¬ Forall (λ e, ¬ is_client e) entries →
  ∃ signature,
    apply_ now entries =
      filter (λ e, ¬ is_client e ∧ toLowerCase (key e) ≠ JS.lit "authorization") entries
      ++ [ {| key := JS.lit "Authorization"; value := VStr (JS.lit "TOTP " ++ signature) |} ].
Proof.
  intros Hsome. unfold applyClientKeyAuthorization.
  destruct (List.find _ entries) as [clientEntry|] eqn:Hfind.
  - eexists. f_equal. apply filter_bool. intros e.
    rewrite andb_true_iff, !negb_true_iff, !bool_decide_eq_false. done.
  - exfalso. apply Hsome. apply find_none_iff in Hfind.
    eapply Forall_impl; [exact Hfind|]. intros e He. by apply bool_decide_eq_false in He.
Qed.

Hypothesis lower_Authorization :
  toLowerCase (JS.lit "Authorization") = JS.lit "authorization".

(** The output holds no entry that carries the secret. *)
Lemma apply_no_client_key (now : Z) (entries : list MetadataItem) :
  Forall (λ e, ¬ is_client e) (apply_ now entries).
Proof.
  destruct (decide (Forall (λ e, ¬ is_client e) entries)) as [Hnone|Hsome].
  - by rewrite apply_absent.
  - destruct (apply_present now entries Hsome) as [signature ->].
    apply Forall_app. split.
    + apply Forall_forall. intros e [[He _] _]%list_elem_of_filter. exact He.
    + constructor; [|constructor]. cbn [key]. rewrite lower_Authorization. discriminate.
Qed.

Lemma filter_length_lt {A} (P : A → Prop) `{∀ x, Decision (P x)} (l : list A) :
  ¬ Forall P l → (length (filter P l) < length l)%nat.
Proof.
  induction l as [|x l IH]; intros Hnot.
  - exfalso. apply Hnot. constructor.
  - rewrite filter_cons. destruct (decide (P x)) as [Hx|Hx]; simpl.
    + apply -> Nat.succ_lt_mono. apply IH. intros Hall. apply Hnot. by constructor.
    + pose proof (length_filter P l). lia.
Qed.

End auth_more.

(** X8.  Without an entry whose key lower-cases to "client-key" the
    transform returns its argument unchanged. *)
Theorem authorization_absent_is_identity
    (toLowerCase : list Z → list Z) (String_ : jsval → list Z)
    (now : Z) (entries : list Auth.MetadataItem) :
  Forall (λ e, toLowerCase (Auth.key e) ≠ JS.lit "client-key") entries →
  Auth.applyClientKeyAuthorization toLowerCase String_ now entries = entries.
Proof. apply apply_absent. Qed.

(** X9.  Whatever the input, no entry of the output has a key that
    lower-cases to "client-key": the secret is not forwarded.  So a
    second application, at whatever time, changes nothing. *)
Theorem authorization_drops_secret
    (toLowerCase : list Z → list Z) (String_ : jsval → list Z)
    (now now' : Z) (entries : list Auth.MetadataItem) :
  toLowerCase (JS.lit "Authorization") = JS.lit "authorization" →
  let sent := Auth.applyClientKeyAuthorization toLowerCase String_ now entries in
  Forall (λ e, toLowerCase (Auth.key e) ≠ JS.lit "client-key") sent
  ∧ Auth.applyClientKeyAuthorization toLowerCase String_ now' sent = sent.
Proof.
  intros Hlower sent.
  assert (Forall (λ e, toLowerCase (Auth.key e) ≠ JS.lit "client-key") sent) as Hnone
    by by apply apply_no_client_key.
  split; [exact Hnone | by apply apply_absent].
Qed.

(** X10.  The transform never makes the list longer, and with a
    client-key entry present exactly one entry of the output has a key
    that lower-cases to "authorization": the last one. *)
Theorem authorization_single_credential
    (toLowerCase : list Z → list Z) (String_ : jsval → list Z)
    (now : Z) (entries : list Auth.MetadataItem) :
  toLowerCase (JS.lit "Authorization") = JS.lit "authorization" →
  let sent := Auth.applyClientKeyAuthorization toLowerCase String_ now entries in
  (length sent <= length entries)%nat
  ∧ ((∃ e, e ∈ entries ∧ toLowerCase (Auth.key e) = JS.lit "client-key") →
     ∃ others credential,
       sent = others ++ [credential]
       ∧ Auth.key credential = JS.lit "Authorization"
       ∧ Forall (λ e, toLowerCase (Auth.key e) ≠ JS.lit "authorization") others).
Proof.
  intros Hlower sent. subst sent.
  destruct (decide (Forall (λ e, toLowerCase (Auth.key e) ≠ JS.lit "client-key") entries))
    as [Hnone|Hsome].
  - rewrite apply_absent by done. split; [done|].
    intros (e & Hin & He). rewrite Forall_forall in Hnone. by destruct (Hnone e Hin).
  - destruct (apply_present toLowerCase String_ now entries Hsome) as [signature ->].
    split.
    + rewrite length_app. cbn [length].
      assert (length (filter (λ e, toLowerCase (Auth.key e) ≠ JS.lit "client-key"
              ∧ toLowerCase (Auth.key e) ≠ JS.lit "authorization") entries)
              < length entries)%nat; [|lia].
      apply filter_length_lt. intros Hall. apply Hsome.
      eapply Forall_impl; [exact Hall|]. by intros e [He _].
    + intros _. eexists _, _. split_and!; [done | done |].
      apply Forall_forall. by intros e [[_ He] _]%list_elem_of_filter.
Qed.

(** X11.  Two invocations in the same 30-second step give the same
    output; the step of a clock at [now] milliseconds starts at
    [rounded now] seconds and lasts 30 seconds. *)
Theorem authorization_stable_in_window
    (toLowerCase : list Z → list Z) (String_ : jsval → list Z)
    (now now' : Z) (entries : list Auth.MetadataItem) :
  0 <= now → 0 <= now' → now / 30000 = now' / 30000 →
  Auth.applyClientKeyAuthorization toLowerCase String_ now entries =
    Auth.applyClientKeyAuthorization toLowerCase String_ now' entries
  ∧ Auth.rounded now * 1000 <= now < (Auth.rounded now + 30) * 1000.
Proof.
  intros Hnow Hnow' Hsame. split.
  - unfold Auth.applyClientKeyAuthorization.
    by rewrite !rounded_window, Hsame by done.
  - rewrite rounded_window by done. Z.div_mod_to_equations. lia.
Qed.

Lemma authorization_absent_is_identity_witness :
  let entries :=
    [ {| Auth.key := JS.lit "Authorization"; Auth.value := VStr (JS.lit "Bearer token") |};
      {| Auth.key := JS.lit "x-id"; Auth.value := VNum 7 |} ] in
  Auth.applyClientKeyAuthorization Auth.ascii_toLowerCase Auth.String_of
    1700000012345 entries = entries.
Proof.
  intros entries.
  apply (authorization_absent_is_identity Auth.ascii_toLowerCase Auth.String_of
           1700000012345 entries).
  repeat constructor; vm_compute; discriminate.
Defined.

Lemma authorization_drops_secret_witness :
  let sent :=
    Auth.applyClientKeyAuthorization Auth.ascii_toLowerCase Auth.String_of 1700000012345
      [ {| Auth.key := JS.lit "x-id"; Auth.value := VNum 7 |};
        {| Auth.key := JS.lit "CLIENT-KEY"; Auth.value := VStr (JS.lit "s3cr3t") |} ] in
  Forall (λ e, Auth.ascii_toLowerCase (Auth.key e) ≠ JS.lit "client-key") sent
  ∧ Auth.applyClientKeyAuthorization Auth.ascii_toLowerCase Auth.String_of
      1800000000000 sent = sent.
Proof.
  apply (authorization_drops_secret Auth.ascii_toLowerCase Auth.String_of
           1700000012345 1800000000000).
  reflexivity.
Defined.

Lemma authorization_single_credential_witness :
  let entries :=
    [ {| Auth.key := JS.lit "authorization"; Auth.value := VStr (JS.lit "Bearer old") |};
      {| Auth.key := JS.lit "Client-Key"; Auth.value := VStr (JS.lit "s3cr3t") |};
      {| Auth.key := JS.lit "AUTHORIZATION"; Auth.value := VStr (JS.lit "Basic old") |} ] in
  let sent :=
    Auth.applyClientKeyAuthorization Auth.ascii_toLowerCase Auth.String_of
      1700000012345 entries in
  (length sent <= 3)%nat
  ∧ ∃ others credential,
      sent = others ++ [credential]
      ∧ Auth.key credential = JS.lit "Authorization"
      ∧ Forall (λ e, Auth.ascii_toLowerCase (Auth.key e) ≠ JS.lit "authorization") others.
Proof.
  intros entries sent.
  destruct (authorization_single_credential Auth.ascii_toLowerCase Auth.String_of
              1700000012345 entries) as [Hlength Hlast].
  - reflexivity.
  - split; [exact Hlength|]. apply Hlast.
    eexists. split; [apply list_elem_of_further, list_elem_of_here | reflexivity].
Defined.

Lemma authorization_stable_in_window_witness :
  let entries :=
    [ {| Auth.key := JS.lit "client-key"; Auth.value := VStr (JS.lit "s3cr3t") |} ] in
  Auth.applyClientKeyAuthorization Auth.ascii_toLowerCase Auth.String_of
    1700000012345 entries =
  Auth.applyClientKeyAuthorization Auth.ascii_toLowerCase Auth.String_of
    1700000039999 entries
  ∧ Auth.rounded 1700000012345 * 1000 <= 1700000012345
      < (Auth.rounded 1700000012345 + 30) * 1000.
Proof.
  intros entries.
  apply (authorization_stable_in_window Auth.ascii_toLowerCase Auth.String_of
           1700000012345 1700000039999 entries); [lia | lia | reflexivity].
Defined.

(** ** The HTTP front *)

Section http.
Import Http.

Context {number : Type} (number_truthy : number → bool)
        (as_value : unknown number → jsval)
        {meta_map : Type} (type_error : string → error meta_map)
        (toLowerCase : list Z → list Z) (String_ : jsval → list Z)
        {Metadata : Type} (md_new : Metadata)
        (md_add : Metadata → list Z → list Z → error meta_map + Metadata)
        (now : Z)
        (Check : list Z → channel → unknown number → Metadata → call_outcome meta_map).

#[local] Abbreviation normalize_ := (normalizeMetadata number number_truthy as_value).
#[local] Abbreviation build_ :=
  (buildGrpcMetadata number number_truthy as_value meta_map type_error toLowerCase String_
     Metadata md_new md_add now).
#[local] Abbreviation perform_ :=
  (performHealthCheck number number_truthy meta_map type_error Metadata Check).
#[local] Abbreviation health_check_ :=
  (health_check number number_truthy as_value meta_map type_error toLowerCase String_
     Metadata md_new md_add now Check).
#[local] Abbreviation fetch_ :=
  (fetch number number_truthy as_value meta_map type_error toLowerCase String_
     Metadata md_new md_add now Check).

Lemma normalize_entry (entry : unknown number) :
  normalize_ (UArray [entry]) = option_list (item_of as_value entry).
Proof.
  destruct entry as [| |b|n|s|items|props]; try reflexivity.
  - by destruct b.
  - simpl. by destruct (number_truthy n).
  - simpl. by destruct (bool_decide (s = [])).
  - unfold normalizeMetadata, item_of. cbn -[JS.lit own].
    destruct (own number props (JS.lit "key")) as [| |b|n|k|items|props'] eqn:Hkey;
      try reflexivity.
    destruct (own number props (JS.lit "value")) eqn:Hvalue;
      cbn -[JS.lit own]; rewrite ?Hkey, ?Hvalue; reflexivity.
Qed.

Lemma normalize_cons (entry : unknown number) (items : list (unknown number)) :
  normalize_ (UArray (entry :: items)) =
    normalize_ (UArray [entry]) ++ normalize_ (UArray items).
Proof.
  unfold normalizeMetadata. cbn [map List.filter].
  destruct (_ && _ && _); reflexivity.
Qed.






Lemma build_sent (payload : unknown number) (md : Metadata) (sent : list Auth.MetadataItem) :
  build_ payload = inr (md, sent) →
  ∃ metadata,
    read number payload "metadata" = Some metadata
    ∧ sent = Auth.applyClientKeyAuthorization toLowerCase String_ now (normalize_ metadata).
Proof.
  unfold buildGrpcMetadata. destruct (read number payload "metadata") as [metadata|]; [|done].
  destruct (add_all _ _ _ _ _ _); [done|]. intros [= <- <-]. eauto.
Qed.

(** X13.  The address that is dialled: [target] when it is a non-empty
    string, [host] when [target] is absent or [null] and [host] is a
    non-empty string.  The call then decides the outcome. *)
Theorem health_check_dials
    (props : list (list Z * unknown number)) (md : Metadata) (t : list Z) :
  t ≠ [] →
  own number props (JS.lit "target") = UString t
  ∨ (nullish number (own number props (JS.lit "target")) = true
     ∧ own number props (JS.lit "host") = UString t) →
  perform_ (UObject props) md =
    callback meta_map
      (Check t
         (if ToBoolean number number_truthy (own number props (JS.lit "insecure"))
          then Insecure else Ssl)
         (coalesce number (own number props (JS.lit "service")) (UString []))
         md).
Proof.
  intros Ht Htarget. unfold performHealthCheck, read_opt, read.
  cbn -[JS.lit own coalesce ToBoolean callback].
  assert (coalesce number (own number props (JS.lit "target"))
            (own number props (JS.lit "host")) = UString t) as ->.
  { destruct Htarget as [-> | [Hnull ->]]; [done|].
    unfold coalesce. by rewrite Hnull. }
  cbn -[JS.lit own coalesce callback]. by rewrite bool_decide_false.
Qed.

(** X14.  In every other case of an object payload whose metadata was
    accepted, and so also for an empty [target] beside a usable [host],
    the answer is 502 with the fixed message, whatever the client would
    do: it is not asked. *)
Theorem bad_target_is_502
    (props : list (list Z * unknown number)) (md : Metadata)
    (sent : list Auth.MetadataItem) :
  build_ (UObject props) = inr (md, sent) →
  (¬ ∃ t, t ≠ []
      ∧ (own number props (JS.lit "target") = UString t
         ∨ (nullish number (own number props (JS.lit "target")) = true
            ∧ own number props (JS.lit "host") = UString t))) →
  fetch_ "POST" "/health/check" (inr (UObject props)) =
    Some (Reply 502
            (ErrorBody (JS.lit "`target` (host:port) is required in the payload.")
               VUndefined None None
               (coalesce number (own number props (JS.lit "target"))
                  (own number props (JS.lit "host")))
               (coalesce number (own number props (JS.lit "service")) (UString []))
               (Some sent))).
Proof.
  intros Hbuild Hbad. unfold fetch.
  rewrite decide_False by done. rewrite decide_False by (intros [? ?]; done).
  rewrite decide_True by done.
  unfold health_check. rewrite Hbuild.
  assert (perform_ (UObject props) md = Some (inl target_error)) as ->; [|reflexivity].
  unfold performHealthCheck, read_opt, read.
  cbn -[JS.lit own coalesce ToBoolean callback].
  destruct (negb _ || negb _) eqn:Hcheck; [done|]. exfalso. apply Hbad.
  apply orb_false_iff in Hcheck as [Htruthy Hstring].
  apply negb_false_iff in Htruthy, Hstring.
  unfold coalesce in *.
  destruct (nullish number (own number props (JS.lit "target"))) eqn:Hnull.
  - destruct (own number props (JS.lit "host")) as [| |b|n|t|items|props'];
      try done.
    exists t. split; [|by right]. intros ->. done.
  - destruct (own number props (JS.lit "target")) as [| |b|n|t|items|props'];
      try done.
    exists t. split; [|by left]. intros ->. done.
Qed.


(** X16.  No response echoes the secret: whatever the request, the
    [metadataSent] of the body has no entry whose key lower-cases to
    "client-key". *)
Theorem metadata_sent_has_no_secret
    (method pathname : string) (json : list Z + unknown number)
    (r : reply number meta_map) (sent : list Auth.MetadataItem) :
  toLowerCase (JS.lit "Authorization") = JS.lit "authorization" →
  fetch_ method pathname json = Some r →
  metadata_sent (http_body r) = Some sent →
  Forall (λ entry, toLowerCase (Auth.key entry) ≠ JS.lit "client-key") sent.
Proof.
  intros Hlower. unfold fetch. repeat case_decide; try (by intros [= <-]).
  destruct json as [parse_message|payload]; [by intros [= <-]|].
  unfold health_check.
  destruct (build_ payload) as [e|[md sent']] eqn:Hbuild; [by intros [= <-]|].
  destruct (build_sent _ _ _ Hbuild) as (metadata & _ & ->).
  destruct (perform_ payload md) as [[e|result]|]; [| |done];
    intros [= <-]; simpl; intros [= <-]; by apply apply_no_client_key.
Qed.

End http.

(** X12.  [normalizeMetadata] returns the empty list for anything but an
    array; of an array it keeps, in order, the elements that are objects
    with a string [key] and a [value] other than [undefined] (a [value]
    of [null] is kept), and drops every other element. *)
Theorem normalizeMetadata_selects
    {number : Type} (number_truthy : number → bool)
    (as_value : Http.unknown number → jsval) (metadata : Http.unknown number) :
  Http.normalizeMetadata number number_truthy as_value metadata =
    match metadata with
    | Http.UArray items => omap (Http.item_of as_value) items
    | _ => []
    end.
Proof.
  destruct metadata as [| |b|n|s|items|props]; try reflexivity.
  induction items as [|entry items IH]; [reflexivity|].
  rewrite normalize_cons, IH, normalize_entry. simpl.
  by destruct (Http.item_of as_value entry).
Qed.

Section http_witnesses.
Import Http.

Lemma health_check_dials_witness :
  performHealthCheck Z z_truthy unit plain_type_error (list (list Z * list Z))
    (example_Check Unanswered)
    (UObject [(JS.lit "host", UString (JS.lit "h:1")); (JS.lit "insecure", UBool true)]) [] =
  None.
Proof.
  rewrite (health_check_dials z_truthy plain_type_error (example_Check Unanswered)
             [(JS.lit "host", UString (JS.lit "h:1")); (JS.lit "insecure", UBool true)]
             [] (JS.lit "h:1")).
  - reflexivity.
  - discriminate.
  - right. split; reflexivity.
Defined.

Lemma bad_target_is_502_witness :
  http_status <$>
    example_fetch (Answered (Some (<["status" := VNum 1]> ∅))) "POST" "/health/check"
      (inr (UObject [(JS.lit "target", UString []); (JS.lit "host", UString (JS.lit "h:1"))])) =
  Some 502.
Proof.
  unfold example_fetch.
  rewrite (bad_target_is_502 z_truthy z_value plain_type_error Auth.ascii_toLowerCase
             Auth.String_of [] list_add example_clock
             (example_Check (Answered (Some (<["status" := VNum 1]> ∅))))
             [(JS.lit "target", UString []); (JS.lit "host", UString (JS.lit "h:1"))]
             [] []).
  - reflexivity.
  - reflexivity.
  - intros (t & Ht & [Htarget | [Hnull _]]); [|discriminate Hnull].
    apply Ht. vm_compute in Htarget. by injection Htarget as <-.
Defined.


Lemma metadata_sent_has_no_secret_witness :
  ∃ r sent,
    example_fetch (Rejected (Error None (VNum 16) None None)) "POST" "/health/check"
      (inr example_payload) = Some r
    ∧ http_status r = 401
    ∧ metadata_sent (http_body r) = Some sent
    ∧ length sent = 2%nat
    ∧ Forall (λ entry, Auth.ascii_toLowerCase (Auth.key entry) ≠ JS.lit "client-key") sent.
Proof.
  eexists _, _. split; [vm_compute; reflexivity|].
  split; [reflexivity|]. split; [reflexivity|]. split; [reflexivity|].
  eapply (metadata_sent_has_no_secret z_truthy z_value plain_type_error
            Auth.ascii_toLowerCase Auth.String_of [] list_add example_clock
            (example_Check (Rejected (Error None (VNum 16) None None)))
            "POST" "/health/check" (inr example_payload));
    [reflexivity | vm_compute; reflexivity | reflexivity].
Defined.

End http_witnesses.

(** ** From the bytes of a response to the status of the reply *)

Lemma parseProtobufResponse_shaped
    (fuel : nat) (buffer : list Z) (response : gmap string jsval) (console : list string) :
  is_bytes buffer →
  Health.parseProtobufResponse fuel buffer = Some (response, console) →
  well_shaped response.
Proof.
  intros Hbytes. unfold Health.parseProtobufResponse.
  destruct (Health.parse_loop fuel buffer Health.initial) as [st|] eqn:Hloop; [|done].
  simpl. intros [= <- <-].
  eapply parse_loop_shaped; [done|exact Hloop|]. apply map_Forall_empty.
Qed.

Lemma shaped_serving (response : gmap string jsval) :
  well_shaped response →
  Status.isServing (Status.rawStatus response) = true
  ↔ response !! "status" = Some (VNum 1).
Proof.
  intros Hshape. unfold Status.rawStatus.
  destruct (response !! "status") as [v|] eqn:Hstatus; simpl; [|done].
  destruct (shaped_status _ _ Hshape Hstatus) as (n & -> & _).
  unfold Status.isServing. rewrite bool_decide_eq_true.
  split; [intros [Heq | Heq]; [discriminate Heq | by injection Heq as ->]|].
  intros ?. simplify_eq. by right.
Qed.

Section end_to_end.
Import Http.

Context {number : Type} (number_truthy : number → bool)
  (as_value : unknown number → jsval)
  {meta_map : Type} (type_error : string → error meta_map)
  (toLowerCase : list Z → list Z) (String_ : jsval → list Z)
  {Metadata : Type} (md_new : Metadata)
  (md_add : Metadata → list Z → list Z → error meta_map + Metadata)
  (now : Z)
  (Check : list Z → channel → unknown number → Metadata → call_outcome meta_map).

#[local] Abbreviation handler :=
  (fetch number number_truthy as_value meta_map type_error toLowerCase String_
         Metadata md_new md_add now Check).
#[local] Abbreviation metadata_of :=
  (buildGrpcMetadata number number_truthy as_value meta_map type_error toLowerCase String_
                     Metadata md_new md_add now).

Lemma perform_outcome (input : unknown number) (md : Metadata) :
  performHealthCheck number number_truthy meta_map type_error Metadata Check input md =
    Some (inl (type_error "target"))
  ∨ performHealthCheck number number_truthy meta_map type_error Metadata Check input md =
      Some (inl target_error)
  ∨ ∃ target creds service,
      performHealthCheck number number_truthy meta_map type_error Metadata Check input md =
        callback meta_map (Check target creds service md).
Proof.
  unfold performHealthCheck. destruct (read number input "target"); [|by left].
  destruct (_ || _); [by right; left|]. right; right. eauto.
Qed.

Lemma handler_post (payload : unknown number) :
  handler "POST" "/health/check" (inr payload) =
    health_check number number_truthy as_value meta_map type_error toLowerCase String_
                 Metadata md_new md_add now Check payload.
Proof. reflexivity. Qed.

(** Reading a property of a payload that has properties to read. *)
Lemma read_opt_Some (payload v : unknown number) (name other : string) :
  read number payload other = Some v →
  read number payload name = Some (read_opt number payload name).
Proof. unfold read_opt. by destruct payload. Qed.

(** The test on the target: it lets through non-empty strings only. *)
Lemma target_usable (target : unknown number) :
  negb (ToBoolean number number_truthy target) || negb (typeof_string number target) = false
  ↔ ∃ t, t ≠ [] ∧ target = UString t.
Proof.
  destruct target as [| |b|x|t|items|props]; simpl; rewrite ?orb_true_r, ?orb_false_r;
    try (split; [done | by intros (? & _ & [=])]).
  rewrite negb_involutive, bool_decide_eq_false. split; [by exists t|].
  by intros (? & ? & [= ->]).
Qed.

(** X17.  The handler leaves a request without a reply exactly when the
    callback of the call it made is never called: the request is a POST
    to /health/check with a payload whose metadata was accepted and
    whose target is a non-empty string, and [Check], with that target,
    the credentials chosen by [insecure], the service of the payload and
    the metadata built from it, never calls back.  The code sets no
    deadline on the call.  Nothing is said of why the callback stays
    away: the upstream may be silent, or the library may not get to the
    callback, as when the response deserializer does not return. *)
Theorem handler_silent_only_on_silent_call
    (method pathname : string) (json : list Z + unknown number) :
  handler method pathname json = None
  ↔ method = "POST" ∧ pathname = "/health/check"
    ∧ ∃ payload md sent t,
        json = inr payload
        ∧ metadata_of payload = inr (md, sent)
        ∧ t ≠ []
        ∧ coalesce number (read_opt number payload "target") (read_opt number payload "host")
          = UString t
        ∧ Check t
            (if ToBoolean number number_truthy (read_opt number payload "insecure")
             then Insecure else Ssl)
            (coalesce number (read_opt number payload "service") (UString []))
            md
          = Unanswered.
Proof.
  split.
  - unfold fetch. repeat case_decide; try done.
    destruct json as [parse_message|payload]; [done|].
    unfold health_check.
    destruct (metadata_of payload) as [e|[md sent]] eqn:Hbuild; [done|].
    assert (∃ metadata, read number payload "metadata" = Some metadata) as [metadata Hread].
    { unfold buildGrpcMetadata in Hbuild.
      destruct (read number payload "metadata"); [eauto|done]. }
    unfold performHealthCheck.
    rewrite (read_opt_Some _ _ "target" _ Hread).
    destruct (negb _ || negb _) eqn:Husable; [done|].
    apply target_usable in Husable as (t & Ht & Htarget). rewrite Htarget. simpl.
    destruct (Check t _ _ md) eqn:Hcall; [done | done |].
    intros _. split_and!; [naive_solver | naive_solver |].
    by exists payload, md, sent, t.
  - intros (-> & -> & payload & md & sent & t & -> & Hbuild & Ht & Htarget & Hcall).
    change (health_check number number_truthy as_value meta_map type_error toLowerCase
              String_ Metadata md_new md_add now Check payload = None).
    unfold health_check. rewrite Hbuild.
    assert (∃ metadata, read number payload "metadata" = Some metadata) as [metadata Hread].
    { unfold buildGrpcMetadata in Hbuild.
      destruct (read number payload "metadata"); [eauto|done]. }
    unfold performHealthCheck.
    rewrite (read_opt_Some _ _ "target" _ Hread).
    rewrite (proj2 (target_usable _)) by eauto.
    rewrite Htarget. simpl. by rewrite Hcall.
Qed.

(** X18.  From the bytes on the wire to the status of the reply: when
    every call is answered with the response decoded from [buffer], a
    health body carries that response, and the reply is 200 exactly when
    the decoded [status] is the number 1, and 503 otherwise; a reply
    with any other body is not a 200. *)
Theorem reply_200_iff_decoded_status_1
    (fuel : nat) (buffer : list Z) (response : gmap string jsval) (console : list string)
    (payload : unknown number) (r : reply number meta_map) :
  is_bytes buffer →
  Health.parseProtobufResponse fuel buffer = Some (response, console) →
  (∀ target creds service md, Check target creds service md = Answered (Some response)) →
  handler "POST" "/health/check" (inr payload) = Some r →
  match http_body r with
  | HealthBody _ _ _ _ _ rawStatus _ grpcResponse =>
    grpcResponse = Some response
    ∧ rawStatus = Status.rawStatus response
    ∧ (http_status r = 200 ↔ response !! "status" = Some (VNum 1))
    ∧ (http_status r = 503 ↔ response !! "status" ≠ Some (VNum 1))
  | _ => http_status r ∈ [401; 502]
  end.
Proof.
  intros Hbytes Hparse Hcall.
  pose proof (shaped_serving response (parseProtobufResponse_shaped _ _ _ _ Hbytes Hparse))
    as Hserving.
  assert (∀ e sent,
            http_status (failure number meta_map e payload sent) ∈ [401; 502]) as Hfailure.
  { intros e sent. simpl. destruct (isAuthError meta_map e); set_solver. }
  rewrite handler_post. unfold health_check.
  destruct (buildGrpcMetadata _ _ _ _ _ _ _ _ _ _ _ payload) as [e|[md sent]];
    [intros [= <-]; apply Hfailure|].
  destruct (perform_outcome payload md) as [-> | [-> | (target & creds & service & ->)]];
    [intros [= <-]; apply Hfailure | intros [= <-]; apply Hfailure |].
  rewrite Hcall. simpl. intros [= <-]. simpl.
  split_and!; [done | done | |].
  - rewrite <- Hserving. by destruct (Status.isServing _).
  - rewrite <- Hserving. by destruct (Status.isServing _).
Qed.

End end_to_end.

Section end_to_end_witnesses.
Import Http.

Lemma handler_silent_only_on_silent_call_witness :
  example_fetch Unanswered "POST" "/health/check" (inr example_payload) = None
  ∧ ∃ md sent,
      buildGrpcMetadata Z z_truthy z_value unit plain_type_error Auth.ascii_toLowerCase
        Auth.String_of (list (list Z * list Z)) [] list_add example_clock example_payload =
        inr (md, sent)
      ∧ example_Check Unanswered (JS.lit "h:1") Ssl (UString []) md = Unanswered.
Proof.
  split; [vm_compute; reflexivity|].
  destruct (proj1 (handler_silent_only_on_silent_call z_truthy z_value plain_type_error
                     Auth.ascii_toLowerCase Auth.String_of [] list_add example_clock
                     (example_Check Unanswered) "POST" "/health/check"
                     (inr example_payload)))
    as (_ & _ & payload & md & sent & t & Hjson & Hbuild & _ & _ & _);
    [vm_compute; reflexivity|].
  injection Hjson as <-. exists md, sent. split; [exact Hbuild | reflexivity].
Defined.

Lemma reply_200_iff_decoded_status_1_witness :
  ∃ response r,
    Health.parseProtobufResponse 2 [0x08; 0x02; 0x12; 0x02; 0x35; 0x6d] = Some (response, [])
    ∧ example_fetch (Answered (Some response)) "POST" "/health/check"
        (inr (UObject [(JS.lit "host", UString (JS.lit "h:1"))])) = Some r
    ∧ http_status r = 503
    ∧ response !! "status" ≠ Some (VNum 1).
Proof.
  eexists _, _. split; [reflexivity|]. split; [reflexivity|]. split; [reflexivity|].
  eapply (reply_200_iff_decoded_status_1 z_truthy z_value plain_type_error
            Auth.ascii_toLowerCase Auth.String_of [] list_add example_clock
            (example_Check (Answered (Some _)))
            2 [0x08; 0x02; 0x12; 0x02; 0x35; 0x6d] _ []
            (UObject [(JS.lit "host", UString (JS.lit "h:1"))]) _
            ltac:(repeat constructor; lia) eq_refl (λ _ _ _ _, eq_refl) eq_refl).
  reflexivity.
Defined.

End end_to_end_witnesses.
